(** * mlb_props_analyzer: the ingestion-and-aggregation pipeline

    A shallow embedding of [src/mlb_props_analyzer.py]: the odds fetcher
    ([OddsAPIExcelFetcher]), its per-player aggregator, the retry and
    pacing loop of [fetch_all_props_to_excel], [main], and the stats cache
    whose fields are declared by [MLBPropsStatsAnalyzer.__init__].

    Python dictionaries are [gmap]s, Python sets are [gset]s, lists are
    lists in processing order.  Code that mutates [self] and may raise is
    written in a state-and-exception monad whose state survives a raise,
    as the attributes of a Python object do. *)

From Stdlib Require Import QArith.
From stdpp Require Import gmap strings list fin_maps sorting.

Local Open Scope string_scope.
Local Open Scope list_scope.

(* ===================================================================== *)
(** * Part I: the program *)
(* ===================================================================== *)

(** ** JSON data as the odds API returns it *)

(** A JSON scalar that the pipeline stores without looking inside
    (the price, the point, and the ['N/A'] sentinel). *)
Inductive pyval :=
  | PyStr (s : string)
  | PyNum (q : Q).

(** One raw outcome of a market.  A field is [None] when the key is absent
    from the JSON object. *)
Record outcome := Outcome {
  o_description : option string;
  o_name : option string;
  o_point : option pyval;
  o_price : option pyval
}.

Record market := Market {
  m_key : option string;
  m_last_update : option string;
  m_outcomes : option (list outcome)
}.

Record bookmaker := Bookmaker {
  b_title : option string;
  b_last_update : option string;
  b_markets : option (list market)
}.

(** The JSON object answered for one event.  [r_other_keys] counts the keys
    other than ['bookmakers'] (the API sends ['id'], ['sport_key'], ...); only
    the truth value of the object depends on them. *)
Record response := Response {
  r_other_keys : nat;
  r_bookmakers : option (list bookmaker)
}.

Record event := Event {
  ev_id : option string;
  ev_home_team : option string;
  ev_away_team : option string;
  ev_commence_time : option string
}.

(** ** Records built by the fetcher *)

(** The [prop_data] dictionary of lines 248-259. *)
Record prop_data := PropData {
  Event_ID : string;
  Game : string;
  Game_Time : string;
  Category : string;
  Player : string;
  Bet_Type : string;
  Line : pyval;
  Odds : pyval;
  Bookmaker_ : string;
  Last_Update : string
}.

(** The [prop_info] dictionary of lines 162-169. *)
Record prop_info := PropInfo {
  pi_category : string;
  pi_bet_type : string;
  pi_line : pyval;
  pi_odds : pyval;
  pi_bookmaker : string;
  pi_game : string
}.

(** One value of [self.unique_players]. *)
Record player_record := PlayerRecord {
  categories : gset string;
  props : list prop_info;
  games : gset string;
  bookmakers : gset string
}.

(** An entry of [events_summary]. *)
Record event_summary := EventSummary {
  s_Event_ID : string;
  s_Away_Team : string;
  s_Home_Team : string;
  s_Game_Time : string;
  s_Matchup : string
}.

(** The attributes of [self] that the pipeline mutates. *)
Record fetcher := Fetcher {
  unique_players : gmap string player_record;
  over_props : gmap string (list prop_data);
  under_props : gmap string (list prop_data)
}.

(** The 12 prop categories of [__init__]. *)
Definition prop_categories : list string :=
  [ "batter_home_runs"; "batter_hits"; "batter_total_bases"; "batter_rbis";
    "batter_runs_scored"; "batter_hits_runs_rbis"; "batter_singles";
    "batter_strikeouts"; "pitcher_strikeouts"; "pitcher_hits_allowed";
    "pitcher_earned_runs"; "pitcher_outs" ].

(** [{category: [] for category in self.prop_categories}] *)
Definition empty_buckets : gmap string (list prop_data) :=
  list_to_map ((λ c, (c, [])) <$> prop_categories).

(** The three assignments of lines 79-81 and 185-187. *)
Definition reset : fetcher :=
  {| unique_players := ∅; over_props := empty_buckets; under_props := empty_buckets |}.

(** ** [str.lower]

    Strings are byte strings; [lower] maps the ASCII capitals and leaves every
    other byte alone.  The code only compares the result with ['over'] and
    ['under']: no character outside ASCII lowercases to one of their
    letters, and the bytes of a multi-byte UTF-8 character are all above 127,
    so for these two comparisons [lower] decides what Python's does. *)
Definition lower_ascii (c : Ascii.ascii) : Ascii.ascii :=
  let n := Ascii.N_of_ascii c in
  if ((65 <=? n) && (n <=? 90))%N then Ascii.ascii_of_N (n + 32) else c.

Fixpoint lower (s : string) : string :=
  match s with
  | EmptyString => EmptyString
  | String c r => String (lower_ascii c) (lower r)
  end.

(** ** The player aggregator: [process_player_data] (lines 146-172) *)

Definition new_player : player_record :=
  {| categories := ∅; props := []; games := ∅; bookmakers := ∅ |}.

Definition make_prop_info (category : string) (pd : prop_data) : prop_info :=
  {| pi_category := category;
     pi_bet_type := Bet_Type pd;
     pi_line := Line pd;
     pi_odds := Odds pd;
     pi_bookmaker := Bookmaker_ pd;
     pi_game := Game pd |}.

(** The four in-place updates of lines 159-172 on one player's record. *)
Definition add_prop (category : string) (pd : prop_data) (r : player_record)
  : player_record :=
  {| categories := categories r ∪ {[ category ]};
     props := props r ++ [make_prop_info category pd];
     games := games r ∪ {[ Game pd ]};
     bookmakers := bookmakers r ∪ {[ Bookmaker_ pd ]} |}.

Definition set_unique_players (f : fetcher) (u : gmap string player_record)
  : fetcher :=
  {| unique_players := u; over_props := over_props f; under_props := under_props f |}.

Definition process_player_data (player_name category : string) (pd : prop_data)
    (f : fetcher) : fetcher :=
  let u :=
    match unique_players f !! player_name with
    | None => <[player_name := new_player]> (unique_players f)
    | Some _ => unique_players f
    end in
  set_unique_players f (alter (add_prop category pd) player_name u).

(** ** The machine: [self], the outside world, and exceptions *)

Inductive sleep_site := Retry | RateLimit.

(** What the run does to the outside world, in order.  [ESleep] records the
    call site of [time.sleep]: line 232 ([Retry]) or line 279 ([RateLimit]). *)
Inductive effect :=
  | EGetEvents
  | EFetch (event_id : string)
  | ESleep (site : sleep_site) (seconds : Q)
  | EWorkbook (filename : string).

Inductive exn :=
  | KeyError (key : string)
  | OtherError
  | SystemExit (code : Z).

(** What one call of [get_event_props] can do: return the decoded JSON,
    catch a [RequestException] and return [None] (lines 142-144), or let any
    other exception escape. *)
Inductive fetch_outcome :=
  | FetchJson (r : response)
  | FetchFailed
  | FetchRaised.

(** The outside world of one run.  [net k id] is what the [k]-th odds request
    of the run does when it asks for event [id]; [listing] is [None] when the
    listing request raises [RequestException].  The three analysis fields
    stand for methods of [MLBPropsStatsAnalyzer] whose bodies the source
    elides ([load_props_data], [process_all_props],
    [create_cheat_sheets_excel]); [run_full_analysis] only tests their
    results. *)
Record world := World {
  env_api_key : option string;
  now : string;
  listing : option (list event);
  net : nat → string → fetch_outcome;
  workbook_ok : bool;
  load_props_ok : bool;
  analyzed_rows : option nat;
  cheat_sheets_file : string → option string
}.

(** [self], the local [events_summary], and two observations of the run that
    no code reads: the effects so far (with the number of odds requests made)
    and [built], the [prop_data] dictionaries constructed so far by lines
    248-259. *)
Record machine := Machine {
  self : fetcher;
  events_summary : list event_summary;
  effects : list effect;
  calls : nat;
  built : list prop_data
}.

Definition boot (f : fetcher) : machine :=
  {| self := f; events_summary := []; effects := []; calls := 0; built := [] |}.

Definition exec (A : Type) : Type := machine → machine * (exn + A).

Definition ret {A} (a : A) : exec A := λ m, (m, inr a).

Definition raise {A} (e : exn) : exec A := λ m, (m, inl e).

Definition bind {A B} (c : exec A) (k : A → exec B) : exec B :=
  λ m, match c m with
       | (m', inr a) => k a m'
       | (m', inl e) => (m', inl e)
       end.

(** [try: c except Exception: h] ([SystemExit] is not an [Exception]). *)
Definition try_except {A} (c : exec A) (h : exec A) : exec A :=
  λ m, match c m with
       | (m', inl (SystemExit code)) => (m', inl (SystemExit code))
       | (m', inl _) => h m'
       | r => r
       end.

Notation "x <- c ;; k" := (bind c (λ x, k))
  (at level 100, c at next level, right associativity, only parsing).
Notation "c ;;; k" := (bind c (λ _, k))
  (at level 100, right associativity, only parsing).

Definition modify_self (g : fetcher → fetcher) : exec unit :=
  λ m, ({| self := g (self m); events_summary := events_summary m;
           effects := effects m; calls := calls m; built := built m |}, inr tt).

Definition emit (e : effect) : exec unit :=
  λ m, ({| self := self m; events_summary := events_summary m;
           effects := effects m ++ [e]; calls := calls m; built := built m |}, inr tt).

Definition record_built (pd : prop_data) : exec unit :=
  λ m, ({| self := self m; events_summary := events_summary m;
           effects := effects m; calls := calls m; built := built m ++ [pd] |}, inr tt).

Definition append_summary (s : event_summary) : exec unit :=
  λ m, ({| self := self m; events_summary := events_summary m ++ [s];
           effects := effects m; calls := calls m; built := built m |}, inr tt).

Definition clear_summary : exec unit :=
  λ m, ({| self := self m; events_summary := [];
           effects := effects m; calls := calls m; built := built m |}, inr tt).

(** [d[key]] on a JSON object: [KeyError] when the key is absent. *)
Definition getitem {A} (field : option A) (key : string) : exec A :=
  match field with
  | Some v => ret v
  | None => raise (KeyError key)
  end.

(** [time.sleep] *)
Definition sleep (site : sleep_site) (seconds : Q) : exec unit :=
  emit (ESleep site seconds).

(** [for x in xs: body x] *)
Fixpoint for_each {A} (body : A → exec unit) (xs : list A) : exec unit :=
  match xs with
  | [] => ret tt
  | x :: rest => body x ;;; for_each body rest
  end.

(** ** The odds source client *)

(** [get_mlb_events] (lines 105-122): the decoded list, or [[]] when the
    request raises [RequestException]. *)
Definition get_mlb_events (w : world) : exec (list event) :=
  emit EGetEvents ;;;
  ret (default [] (listing w)).

(** [get_event_props] (lines 124-144). *)
Definition get_event_props (w : world) (event_id : string)
  : exec (option response) :=
  λ m,
    let m' := {| self := self m; events_summary := events_summary m;
                 effects := effects m ++ [EFetch event_id];
                 calls := S (calls m); built := built m |} in
    match net w (calls m) event_id with
    | FetchJson r => (m', inr (Some r))
    | FetchFailed => (m', inr None)
    | FetchRaised => (m', inl OtherError)
    end.

(** Truth value of [props_data]: [None] and the empty object are false. *)
Definition truthy (props_data : option response) : bool :=
  match props_data with
  | None => false
  | Some r => negb (r_other_keys r =? 0)%nat || bool_decide (is_Some (r_bookmakers r))
  end.

Definition max_retries : nat := 3.

(** The retry loop of lines 224-233, [retries] being what is left of
    [range(max_retries)].  [props_data] is the local of that name: an attempt
    that raises leaves it as it was, an attempt that returns assigns it and
    breaks when it is true.  The sleep is in the [except] branch only. *)
Fixpoint retry_loop (w : world) (event_id : string) (retries : list nat)
    (props_data : option response) : exec (option response) :=
  match retries with
  | [] => ret props_data
  | retry :: rest =>
      r <- try_except
             (pd <- get_event_props w event_id ;;
              ret (pd, truthy pd))
             ((if bool_decide (retry < max_retries - 1)%nat then sleep Retry 2
               else ret tt) ;;;
              ret (props_data, false)) ;;
      if r.2 then ret r.1 else retry_loop w event_id rest r.1
  end.

(** ** The prop normalizer (lines 248-259)

    The dictionary display evaluates its values in order, so a missing
    ['name'] is reported before a missing ['price']. *)
Definition normalize (event_id game commence_time : string)
    (bookmaker_name : string) (bk : bookmaker) (market_key : string)
    (mk : market) (o : outcome) : exn + prop_data :=
  match o_name o with
  | None => inl (KeyError "name")
  | Some bet_type =>
      match o_price o with
      | None => inl (KeyError "price")
      | Some odds =>
          inr {| Event_ID := event_id;
                 Game := game;
                 Game_Time := commence_time;
                 Category := market_key;
                 Player := default "Unknown" (o_description o);
                 Bet_Type := bet_type;
                 Line := default (PyStr "N/A") (o_point o);
                 Odds := odds;
                 Bookmaker_ := bookmaker_name;
                 Last_Update :=
                   default (default "" (b_last_update bk)) (m_last_update mk) |}
      end
  end.

Definition lift {A} (r : exn + A) : exec A := λ m, (m, r).

(** ** The ingestion loop of [fetch_all_props_to_excel] (lines 239-270) *)

Definition set_over_props (b : gmap string (list prop_data)) (f : fetcher)
  : fetcher :=
  {| unique_players := unique_players f; over_props := b; under_props := under_props f |}.

Definition set_under_props (b : gmap string (list prop_data)) (f : fetcher)
  : fetcher :=
  {| unique_players := unique_players f; over_props := over_props f; under_props := b |}.

(** [bucket[market_key].append(prop_data)] on a dictionary of lists. *)
Definition place (market_key : string) (pd : prop_data)
    (bucket : gmap string (list prop_data)) : exn + gmap string (list prop_data) :=
  match bucket !! market_key with
  | Some l => inr (<[market_key := l ++ [pd]]> bucket)
  | None => inl (KeyError market_key)
  end.

Definition append_over (market_key : string) (pd : prop_data) : exec unit :=
  λ m, bind (lift (place market_key pd (over_props (self m))))
            (λ b, modify_self (set_over_props b)) m.

Definition append_under (market_key : string) (pd : prop_data) : exec unit :=
  λ m, bind (lift (place market_key pd (under_props (self m))))
            (λ b, modify_self (set_under_props b)) m.

(** Lines 265-270. *)
Definition route (market_key : string) (o : outcome) (pd : prop_data) : exec unit :=
  if bool_decide (market_key ∈ prop_categories) then
    name <- getitem (o_name o) "name" ;;
    if bool_decide (lower name = "over") then append_over market_key pd
    else if bool_decide (lower name = "under") then append_under market_key pd
    else ret tt
  else ret tt.

(** The body of the loop over outcomes (lines 248-270). *)
Definition process_outcome (event_id game commence_time : string)
    (bookmaker_name : string) (bk : bookmaker) (market_key : string)
    (mk : market) (o : outcome) : exec unit :=
  pd <- lift (normalize event_id game commence_time bookmaker_name bk
                market_key mk o) ;;
  record_built pd ;;;
  modify_self (process_player_data (Player pd) market_key pd) ;;;
  route market_key o pd.

(** The body of the loop over markets (lines 243-270); [available_markets]
    is only printed and is left out. *)
Definition process_market (event_id game commence_time : string)
    (bookmaker_name : string) (bk : bookmaker) (mk : market) : exec unit :=
  market_key <- getitem (m_key mk) "key" ;;
  for_each (process_outcome event_id game commence_time bookmaker_name bk
              market_key mk)
           (default [] (m_outcomes mk)).

(** The body of the loop over bookmakers (lines 240-270). *)
Definition process_bookmaker (event_id game commence_time : string)
    (bk : bookmaker) : exec unit :=
  bookmaker_name <- getitem (b_title bk) "title" ;;
  for_each (process_market event_id game commence_time bookmaker_name bk)
           (default [] (b_markets bk)).

Definition process_response (event_id game commence_time : string)
    (r : response) : exec unit :=
  for_each (process_bookmaker event_id game commence_time)
           (default [] (r_bookmakers r)).

(** The body of the loop over events (lines 204-279), for the [i]-th of
    [n] events, [i] counted from 1. *)
Definition process_event (w : world) (delay_between_requests : Q)
    (n i : nat) (ev : event) : exec unit :=
  event_id <- getitem (ev_id ev) "id" ;;
  home_team <- getitem (ev_home_team ev) "home_team" ;;
  away_team <- getitem (ev_away_team ev) "away_team" ;;
  commence_time <- getitem (ev_commence_time ev) "commence_time" ;;
  let matchup := String.append away_team (String.append " @ " home_team) in
  append_summary {| s_Event_ID := event_id; s_Away_Team := away_team;
                    s_Home_Team := home_team; s_Game_Time := commence_time;
                    s_Matchup := matchup |} ;;;
  props_data <- retry_loop w event_id (seq 0 max_retries) None ;;
  (match props_data with
   | Some r =>
       if truthy props_data
       then process_response event_id matchup commence_time r
       else ret tt
   | None => ret tt
   end) ;;;
  if bool_decide (i < n)%nat then sleep RateLimit delay_between_requests
  else ret tt.

(** [for i, event in enumerate(events, 1)], from index [i] on. *)
Fixpoint events_loop (w : world) (delay_between_requests : Q) (n i : nat)
    (events : list event) : exec unit :=
  match events with
  | [] => ret tt
  | ev :: rest =>
      process_event w delay_between_requests n i ev ;;;
      events_loop w delay_between_requests n (S i) rest
  end.

(** [events[:k]] *)
Definition slice_to {A} (k : Z) (l : list A) : list A :=
  if (0 <=? k)%Z then take (Z.to_nat k) l
  else take (length l - Z.to_nat (- k)) l.

(** [create_excel_workbook]: the report layer, which either writes the
    workbook or raises. *)
Definition create_excel_workbook (w : world) (filename : string) : exec unit :=
  emit (EWorkbook filename) ;;;
  if workbook_ok w then ret tt else raise OtherError.

(** [fetch_all_props_to_excel] (lines 174-294). *)
Definition fetch_all_props_to_excel (w : world) (max_events : option Z)
    (delay_between_requests : Q) (filename : option string) : exec string :=
  modify_self (λ _, reset) ;;;
  events <- get_mlb_events w ;;
  match events with
  | [] => ret ""
  | _ :: _ =>
      let events :=
        match max_events with
        | Some k => if (k =? 0)%Z then events else slice_to k events
        | None => events
        end in
      clear_summary ;;;
      events_loop w delay_between_requests (length events) 1 events ;;;
      let filename :=
        match filename with
        | None => String.append "mlb_props_" (String.append (now w) ".xlsx")
        | Some f => f
        end in
      try_except (create_excel_workbook w filename ;;; ret filename) (ret "")
  end.

(** ** [run_full_analysis] (lines 790-826) and [main] (lines 832-883) *)

Definition run_full_analysis (w : world) (output_filename : string)
  : option string :=
  if load_props_ok w then
    match analyzed_rows w with
    | None => None
    | Some 0%nat => None
    | Some (S _) => cheat_sheets_file w output_filename
    end
  else None.

Definition nonempty (s : string) : bool :=
  match s with EmptyString => false | String _ _ => true end.

(** [main]: the constructor call is the reset of [self]; the call of
    [get_unique_players_list] only reads [self.unique_players] for a print
    and is left out, as every print is. *)
Definition main (w : world) : exec unit :=
  match env_api_key w with
  | None => raise (SystemExit 1)
  | Some API_KEY =>
      if nonempty API_KEY then
        modify_self (λ _, reset) ;;;
        excel_filename <-
          fetch_all_props_to_excel w None (3 # 2)
            (Some (String.append "mlb_props_" (String.append (now w) ".xlsx"))) ;;
        if nonempty excel_filename then
          match run_full_analysis w
                  (String.append "MLB_Props_Cheat_Sheets_"
                     (String.append (now w) ".xlsx")) with
          | Some result_file =>
              if nonempty result_file then ret tt else raise (SystemExit 1)
          | None => raise (SystemExit 1)
          end
        else raise (SystemExit 1)
      else raise (SystemExit 1)
  end.

(** The exit status of the process: 0 on return, the code of [sys.exit],
    1 for a traceback. *)
Definition exit_status (r : exn + unit) : Z :=
  match r with
  | inr _ => 0
  | inl (SystemExit code) => code
  | inl _ => 1
  end.

(** ** The stats enrichment cache

    [MLBPropsStatsAnalyzer.__init__] (lines 745-751) declares the cache
    dictionaries and [cache_lock]; the methods that use them are elided from
    the source.  Their check-populate sequence is modelled from section 4.4
    of the specification as a machine of atomic steps, one worker moving at
    a time. *)

Module StatsCache.
Section Cache.

(** The resolved statistics of one (player, category) pair. *)
Context {stats : Type}.

Definition key : Type := string * string.

(** Modelled from the spec: a [StatsResult], a populated value or the
    explicit "not found" marker. *)
Inductive stats_result :=
  | Found (v : stats)
  | NotFound.

(** Modelled from the spec: where one worker is in [getStats]: before the
    lock, holding it before the lookup, holding it with the upstream fetch
    in flight, holding it with the value, and returned. *)
Inductive pc :=
  | Waiting
  | Checking
  | Fetching
  | Releasing (v : stats_result)
  | Returned (v : stats_result).

(** [player_stats_cache] and [cache_lock] are the fields of lines 746 and
    751; [cache_lock] is [Some t] while worker [t] holds the lock.
    [upstream_calls] lists the keys for which the upstream fetch function
    was invoked, in order; [workers] gives each worker's key and place. *)
Record cache_state := CacheState {
  player_stats_cache : gmap key stats_result;
  cache_lock : option nat;
  upstream_calls : list key;
  workers : list (key * pc)
}.

(** The upstream stats source: what its [n]-th invocation answers for a
    key, [None] being a failed lookup. *)
Context (upstream : nat → key → option stats).

(** The start of a run: all caches empty, the lock free, one waiting worker
    for each request. *)
Definition init (requests : list key) : cache_state :=
  {| player_stats_cache := ∅; cache_lock := None; upstream_calls := [];
     workers := (λ k, (k, Waiting)) <$> requests |}.

(** Modelled from the spec: a failed upstream lookup is recorded as
    "not found". *)
Definition resolve (answer : option stats) : stats_result :=
  match answer with
  | Some x => Found x
  | None => NotFound
  end.

Definition set_pc (t : nat) (k : key) (p : pc) (s : cache_state)
  : list (key * pc) :=
  <[t := (k, p)]> (workers s).

(** Modelled from the spec: [getStats], whose body the source elides.  Section
    4.4: each worker acquires a single mutual-exclusion lock around the
    check-populate sequence; a key found in the cache is returned, a missing
    key is fetched upstream while the lock is held, a failed fetch is
    recorded as "not found", and the entry is never evicted.

    [step t s] is one atomic step of worker [t], [None] when the worker is
    blocked on the lock or has returned. *)
Definition step (t : nat) (s : cache_state) : option cache_state :=
  match workers s !! t with
  | None => None
  | Some (k, Waiting) =>
      match cache_lock s with
      | Some _ => None
      | None =>
          Some {| player_stats_cache := player_stats_cache s;
                  cache_lock := Some t;
                  upstream_calls := upstream_calls s;
                  workers := set_pc t k Checking s |}
      end
  | Some (k, Checking) =>
      match player_stats_cache s !! k with
      | Some v =>
          Some {| player_stats_cache := player_stats_cache s;
                  cache_lock := cache_lock s;
                  upstream_calls := upstream_calls s;
                  workers := set_pc t k (Releasing v) s |}
      | None =>
          Some {| player_stats_cache := player_stats_cache s;
                  cache_lock := cache_lock s;
                  upstream_calls := upstream_calls s ++ [k];
                  workers := set_pc t k Fetching s |}
      end
  | Some (k, Fetching) =>
      let v := resolve (upstream (length (upstream_calls s) - 1) k) in
      Some {| player_stats_cache := <[k := v]> (player_stats_cache s);
              cache_lock := cache_lock s;
              upstream_calls := upstream_calls s;
              workers := set_pc t k (Releasing v) s |}
  | Some (k, Releasing v) =>
      Some {| player_stats_cache := player_stats_cache s;
              cache_lock := None;
              upstream_calls := upstream_calls s;
              workers := set_pc t k (Returned v) s |}
  | Some (k, Returned _) => None
  end.

(** An interleaving: the scheduler picks a worker at each step; a pick
    that cannot move leaves the state as it is. *)
Fixpoint run (schedule : list nat) (s : cache_state) : cache_state :=
  match schedule with
  | [] => s
  | t :: rest => run rest (default s (step t s))
  end.

Definition has_returned (w : key * pc) : Prop :=
  match w.2 with Returned _ => True | _ => False end.

Definition is_fetching (w : key * pc) : Prop :=
  match w.2 with Fetching => True | _ => False end.

Global Instance is_fetching_dec w : Decision (is_fetching w).
Proof. destruct w as [k []]; simpl; apply _. Defined.

(** The number of upstream fetches in flight. *)
Definition in_flight (s : cache_state) : nat :=
  length (filter is_fetching (workers s)).

(** The schedule in which the workers [0 .. n-1] run one after the other,
    each picked four times in a row. *)
Definition one_by_one (n : nat) : list nat :=
  t ← seq 0 n; [t; t; t; t].

End Cache.
End StatsCache.

(** ** The report layer: the values written to the sheets

    The sheet methods of lines 341-707 compute values from [self] and hand
    them to the spreadsheet library.  The functions below are the
    computations of those values; fonts, fills, borders and column widths
    are left out. *)

(** [d[key]] on a dictionary: [KeyError] when the key is absent. *)
Definition subscript {A} (d : gmap string A) (key : string) : exn + A :=
  match d !! key with
  | Some v => inr v
  | None => inl (KeyError key)
  end.

(** [rows = [g(x) for x in xs]] where [g] may raise. *)
Fixpoint for_rows {A B} (g : A → exn + B) (xs : list A) : exn + list B :=
  match xs with
  | [] => inr []
  | x :: rest =>
      match g x with
      | inl e => inl e
      | inr row =>
          match for_rows g rest with
          | inl e => inl e
          | inr rows => inr (row :: rows)
          end
      end
  end.

(** [self.category_colors] (lines 63-76). *)
Definition category_colors : gmap string string :=
  list_to_map
    [ ("batter_home_runs", "FFE699"); ("batter_hits", "C5E0B4");
      ("batter_total_bases", "BDD7EE"); ("batter_rbis", "F4B183");
      ("batter_runs_scored", "D5A6BD"); ("batter_hits_runs_rbis", "A9D18E");
      ("batter_singles", "FFD966"); ("batter_strikeouts", "F8CBAD");
      ("pitcher_strikeouts", "B4C7E7"); ("pitcher_hits_allowed", "C9C9C9");
      ("pitcher_earned_runs", "F2CC8F"); ("pitcher_outs", "E2EFDA") ].

(** One category row of the summary sheet (lines 400-405) and its fill
    colour (line 409). *)
Record summary_row := SummaryRow {
  sr_category : string;
  sr_over_count : nat;
  sr_under_count : nat;
  sr_total_count : nat;
  sr_players : nat;
  sr_status : string;
  sr_color : string
}.

(** Lines 388-391: the players whose categories contain [category]. *)
Definition players_in_category (f : fetcher) (category : string) : gset string :=
  dom (filter (λ kv, category ∈ categories kv.2) (unique_players f)).

(** The body of the loop of lines 382-411. *)
Definition summary_row_of (f : fetcher) (category : string) : exn + summary_row :=
  match subscript (over_props f) category with
  | inl e => inl e
  | inr over =>
      match subscript (under_props f) category with
      | inl e => inl e
      | inr under =>
          let over_count := length over in
          let under_count := length under in
          let total_count := over_count + under_count in
          let players := players_in_category f category in
          let status_color :=
            if bool_decide (0 < total_count)%nat
            then ("✅ Active", default "FFFFFF" (category_colors !! category))
            else ("❌ No Data", "FFE6E6") in
          inr {| sr_category := category;
                 sr_over_count := over_count;
                 sr_under_count := under_count;
                 sr_total_count := total_count;
                 sr_players := size players;
                 sr_status := status_color.1;
                 sr_color := status_color.2 |}
      end
  end.

(** The numbers of the summary sheet: cells B4 and B5 (lines 359-364) and
    the category rows. *)
Record summary_sheet := SummarySheet {
  ss_total_events : nat;
  ss_total_players : nat;
  ss_rows : list summary_row
}.

(** [create_summary_sheet] (lines 341-414). *)
Definition create_summary_sheet (f : fetcher)
    (events_summary : list event_summary) : exn + summary_sheet :=
  match for_rows (summary_row_of f) prop_categories with
  | inl e => inl e
  | inr rows =>
      inr {| ss_total_events := length events_summary;
             ss_total_players := size (unique_players f);
             ss_rows := rows |}
  end.

(** Lines 577-581 of [create_all_props_combined_sheet]: [all_data]. *)
Fixpoint combine_all_props (f : fetcher) (cats : list string)
    (all_data : list prop_data) : exn + list prop_data :=
  match cats with
  | [] => inr all_data
  | category :: rest =>
      match subscript (over_props f) category with
      | inl e => inl e
      | inr over =>
          match subscript (under_props f) category with
          | inl e => inl e
          | inr under => combine_all_props f rest ((all_data ++ over) ++ under)
          end
      end
  end.

(** The head of the combined sheet (lines 583-588): [None] for the message
    "No props data available", otherwise the number shown in the title. *)
Definition combined_sheet_count (f : fetcher) : exn + option nat :=
  match combine_all_props f prop_categories [] with
  | inl e => inl e
  | inr [] => inr None
  | inr (pd :: all_data) => inr (Some (length (pd :: all_data)))
  end.

(** Python compares strings by code point.  Strings here are UTF-8 byte
    strings, and comparing UTF-8 encodings byte by byte gives the order of
    the code points, so [String.leb] is Python's [<=] on strings. *)
Definition str_le (a b : string) : Prop := String.leb a b = true.

Global Instance str_le_dec a b : Decision (str_le a b).
Proof. unfold str_le. apply _. Defined.

(** The order of the items of a dictionary with string keys: the keys are
    distinct, so the comparison of two [(key, value)] tuples is decided by
    the keys. *)
Definition item_le {A} (a b : string * A) : Prop := str_le a.1 b.1.

Global Instance item_le_dec {A} (a b : string * A) : Decision (item_le a b).
Proof. unfold item_le. apply _. Defined.

(** [sorted(self.unique_players.items())] (lines 441 and 724).  The keys
    being distinct, the sorted list is the same whatever the sorting
    algorithm. *)
Definition sorted_players (f : fetcher) : list (string * player_record) :=
  merge_sort item_le (map_to_list (unique_players f)).

(** [sorted(s)] for a set of strings (lines 447 and 726). *)
Definition sorted_set (s : gset string) : list string :=
  merge_sort str_le (elements s).

(** The values of one row of the players sheet (lines 442-457).  Column 5
    joins the bookmakers in the iteration order of a Python set, which the
    program does not determine, and is left out; of column 7 the row keeps
    the parts of the text: the first three props and, when there are more
    than three, how many more. *)
Record player_row := PlayerRow {
  pr_name : string;
  pr_categories_count : nat;
  pr_props_count : nat;
  pr_games_count : nat;
  pr_categories : list string;
  pr_sample_props : list (string * string * pyval);
  pr_more : option nat
}.

Definition player_row_of (item : string * player_record) : player_row :=
  let player_data := item.2 in
  {| pr_name := item.1;
     pr_categories_count := size (categories player_data);
     pr_props_count := length (props player_data);
     pr_games_count := size (games player_data);
     pr_categories := sorted_set (categories player_data);
     pr_sample_props :=
       (λ prop, (pi_category prop, pi_bet_type prop, pi_line prop))
         <$> take 3 (props player_data);
     pr_more :=
       if bool_decide (3 < length (props player_data))%nat
       then Some (length (props player_data) - 3)%nat else None |}.

(** [create_players_sheet] (lines 416-458): [None] for the message
    "No players found", otherwise the rows from row 4 on. *)
Definition create_players_sheet (f : fetcher) : option (list player_row) :=
  if decide (unique_players f = ∅) then None
  else Some (player_row_of <$> sorted_players f).

(** ** The individual category sheets (lines 326-335 and 627-641) *)

(** [category.replace('_', ' ')]: byte 95 is the underscore, byte 32 the
    space. *)
Fixpoint underscores_to_spaces (s : string) : string :=
  match s with
  | EmptyString => EmptyString
  | String c r =>
      String (if (Ascii.N_of_ascii c =? 95)%N then Ascii.ascii_of_N 32 else c)
             (underscores_to_spaces r)
  end.

Definition is_lower_ascii (c : Ascii.ascii) : bool :=
  let n := Ascii.N_of_ascii c in ((97 <=? n) && (n <=? 122))%N.

Definition is_upper_ascii (c : Ascii.ascii) : bool :=
  let n := Ascii.N_of_ascii c in ((65 <=? n) && (n <=? 90))%N.

Definition upper_ascii (c : Ascii.ascii) : Ascii.ascii :=
  if is_lower_ascii c then Ascii.ascii_of_N (Ascii.N_of_ascii c - 32) else c.

(** [str.title()] on ASCII text: a character that follows a letter is
    lowercased, any other character is uppercased. *)
Fixpoint title_from (previous_is_cased : bool) (s : string) : string :=
  match s with
  | EmptyString => EmptyString
  | String c r =>
      String (if previous_is_cased then lower_ascii c else upper_ascii c)
             (title_from (is_lower_ascii c || is_upper_ascii c) r)
  end.

Definition title (s : string) : string := title_from false s.

(** What [create_individual_category_sheet] is called with and what it
    shows: the name of the sheet (lines 631-632) and the number of props in
    its title (line 642), [None] for the message "No ... data available". *)
Record category_sheet := CategorySheet {
  cs_category : string;
  cs_bet_type : string;
  cs_sheet_name : string;
  cs_count : option nat
}.

(** [create_individual_category_sheet] (lines 627-671); the rows, which
    pandas sorts, are left out. *)
Definition create_individual_category_sheet (category bet_type : string)
    (data : list prop_data) : category_sheet :=
  let clean_name := title (underscores_to_spaces category) in
  let sheet_name :=
    String.substring 0 31
      (String.append (String.substring 0 1 bet_type)
         (String.append "-" clean_name)) in
  {| cs_category := category;
     cs_bet_type := bet_type;
     cs_sheet_name := sheet_name;
     cs_count := match data with
                 | [] => None
                 | _ :: _ => Some (length data)
                 end |}.

(** One of the two loops of lines 326-335 of [create_excel_workbook]. *)
Fixpoint individual_sheets (bet_type : string)
    (buckets : gmap string (list prop_data)) (cats : list string)
  : exn + list category_sheet :=
  match cats with
  | [] => inr []
  | category :: rest =>
      match subscript buckets category with
      | inl e => inl e
      | inr data =>
          match individual_sheets bet_type buckets rest with
          | inl e => inl e
          | inr sheets =>
              inr match data with
                  | [] => sheets
                  | _ :: _ =>
                      create_individual_category_sheet category bet_type data
                      :: sheets
                  end
          end
      end
  end.

(** Lines 326-335: the Over sheets, then the Under sheets. *)
Definition category_sheets (f : fetcher) : exn + list category_sheet :=
  match individual_sheets "Over" (over_props f) prop_categories with
  | inl e => inl e
  | inr over =>
      match individual_sheets "Under" (under_props f) prop_categories with
      | inl e => inl e
      | inr under => inr (over ++ under)
      end
  end.

(* ===================================================================== *)
(** * Part II: vocabulary of the properties *)
(* ===================================================================== *)

(** ** Sequences of ingests *)

(** One call [process_player_data(player_name, category, prop_data)]. *)
Record ingest_call := IngestCall {
  c_player : string;
  c_category : string;
  c_prop : prop_data
}.

Definition ingest (f : fetcher) (c : ingest_call) : fetcher :=
  process_player_data (c_player c) (c_category c) (c_prop c) f.

Definition ingest_all (cs : list ingest_call) (f : fetcher) : fetcher :=
  foldl ingest f cs.

(** The stored props list of a player, empty for a player never seen. *)
Definition props_of (f : fetcher) (player_name : string) : list prop_info :=
  match unique_players f !! player_name with
  | Some r => props r
  | None => []
  end.

(** The calls of a sequence that carry exactly this player name. *)
Definition calls_for (player_name : string) (cs : list ingest_call)
  : list ingest_call :=
  filter (λ c, c_player c = player_name) cs.

(** Every stored prop of the record is covered by the record's three sets. *)
Definition record_consistent (r : player_record) : Prop :=
  ∀ p, p ∈ props r →
    pi_category p ∈ categories r ∧ pi_game p ∈ games r ∧
    pi_bookmaker p ∈ bookmakers r.

Definition players_consistent (f : fetcher) : Prop :=
  ∀ player_name r, unique_players f !! player_name = Some r → record_consistent r.

(** ** Buckets and processed props *)

(** [sum(len(bucket) for bucket in d.values())] *)
Definition bucket_total (b : gmap string (list prop_data)) : nat :=
  sum_list_with (λ kv, length kv.2) (map_to_list b).

(** The sum of the lengths of all Over and Under bucket lists. *)
Definition total_buckets (f : fetcher) : nat :=
  bucket_total (over_props f) + bucket_total (under_props f).

(** A prop whose market key is one of the 12 categories and whose side
    lowercases to ['over'] or ['under']. *)
Definition recognized (pd : prop_data) : Prop :=
  Category pd ∈ prop_categories ∧
  (lower (Bet_Type pd) = "over" ∨ lower (Bet_Type pd) = "under").

Global Instance recognized_dec pd : Decision (recognized pd).
Proof. unfold recognized. apply _. Defined.

(** Both bucket dictionaries have a list for each of the 12 categories, as
    they do from [__init__] and from the reset of lines 185-187 on. *)
Definition bucket_keys (f : fetcher) : Prop :=
  ∀ k, k ∈ prop_categories →
    is_Some (over_props f !! k) ∧ is_Some (under_props f !! k).

(** [pd] was appended to the list of [market_key] and nothing else changed. *)
Definition placed_in (market_key : string) (pd : prop_data)
    (before after : gmap string (list prop_data)) : Prop :=
  ∃ l, before !! market_key = Some l ∧ after = <[market_key := l ++ [pd]]> before.


(** ** The monad *)

(** [c] keeps [I], whether it returns or raises. *)
Definition keeps {A} (I : machine → Prop) (c : exec A) : Prop :=
  ∀ m, I m → I (c m).1.

(** A state observation that only depends on [self] and [built] is blind to
    the effect log, the request counter and [events_summary]. *)
Definition aggregate_only (I : machine → Prop) : Prop :=
  ∀ m1 m2, self m1 = self m2 → built m1 = built m2 → I m1 → I m2.


(** ** What one well-formed outcome does to the state *)

(** [bucket[market_key].append(pd)], as a total function. *)
Definition append_bucket (market_key : string) (pd : prop_data)
    (b : gmap string (list prop_data)) : gmap string (list prop_data) :=
  match b !! market_key with
  | Some l => <[market_key := l ++ [pd]]> b
  | None => b
  end.

(** Lines 265-270 when the bucket lists exist. *)
Definition routed (market_key : string) (pd : prop_data) (f : fetcher) : fetcher :=
  if bool_decide (market_key ∈ prop_categories) then
    if bool_decide (lower (Bet_Type pd) = "over")
    then set_over_props (append_bucket market_key pd (over_props f)) f
    else if bool_decide (lower (Bet_Type pd) = "under")
    then set_under_props (append_bucket market_key pd (under_props f)) f
    else f
  else f.

(** Lines 261-270 for a built [prop_data]. *)
Definition ingest_prop (market_key : string) (pd : prop_data) (f : fetcher)
  : fetcher :=
  routed market_key pd (process_player_data (Player pd) market_key pd f).

(** The machine after [pd] was built and [self] became [f]. *)
Definition with_aggregate (f : fetcher) (pd : prop_data) (m : machine) : machine :=
  {| self := f; events_summary := events_summary m; effects := effects m;
     calls := calls m; built := built m ++ [pd] |}.

(** What the props built so far put into the stored list of a player. *)
Definition stored_for (player_name : string) (ps : list prop_data)
  : list prop_info :=
  (λ pd, make_prop_info (Category pd) pd)
    <$> filter (λ pd, Player pd = player_name) ps.

(** The invariant of the ingestion loop: the bucket lists exist and hold
    as many props as were built with a recognized category and side; every
    player record is consistent; and each player's stored list is what the
    props built so far put there, in order. *)
Definition ingestion_inv (m : machine) : Prop :=
  bucket_keys (self m) ∧
  total_buckets (self m) = length (filter recognized (built m)) ∧
  players_consistent (self m) ∧
  (∀ player_name,
     props_of (self m) player_name = stored_for player_name (built m)).


(** ** Sample data

    The scenario of the specification: one event, one bookmaker, the
    category [batter_hits] with an Over and an Under line for one player. *)

Definition sample_over : outcome :=
  {| o_description := Some "Player X"; o_name := Some "Over";
     o_point := Some (PyNum (3 # 2)); o_price := Some (PyNum (-120 # 1)) |}.

Definition sample_under : outcome :=
  {| o_description := Some "Player X"; o_name := Some "Under";
     o_point := Some (PyNum (3 # 2)); o_price := Some (PyNum (100 # 1)) |}.

(** An outcome without a price. *)
Definition sample_unpriced : outcome :=
  {| o_description := Some "Player Y"; o_name := Some "Over";
     o_point := Some (PyNum (1 # 2)); o_price := None |}.

Definition sample_market : market :=
  {| m_key := Some "batter_hits"; m_last_update := None;
     m_outcomes := Some [sample_over; sample_under] |}.

Definition sample_bookmaker : bookmaker :=
  {| b_title := Some "DraftKings"; b_last_update := Some "2024-06-01T17:00:00Z";
     b_markets := Some [sample_market] |}.

Definition sample_response : response :=
  {| r_other_keys := 5; r_bookmakers := Some [sample_bookmaker] |}.

Definition sample_event (id : string) : event :=
  {| ev_id := Some id; ev_home_team := Some "B"; ev_away_team := Some "A";
     ev_commence_time := Some "2024-06-01T23:05:00Z" |}.

(** What [normalize] makes of [sample_over] in event ["e1"]. *)
Definition sample_over_prop : prop_data :=
  {| Event_ID := "e1"; Game := "A @ B"; Game_Time := "2024-06-01T23:05:00Z";
     Category := "batter_hits"; Player := "Player X"; Bet_Type := "Over";
     Line := PyNum (3 # 2); Odds := PyNum (-120 # 1);
     Bookmaker_ := "DraftKings"; Last_Update := "2024-06-01T17:00:00Z" |}.


(** ** Well-formed input *)

(** The first required key that an outcome lacks, in the order in which
    lines 254 and 256 ask for them. *)
Definition missing_required (o : outcome) : option string :=
  match o_name o, o_price o with
  | None, _ => Some "name"
  | Some _, None => Some "price"
  | Some _, Some _ => None
  end.

Definition outcome_wf (o : outcome) : Prop := missing_required o = None.

Definition market_wf (mk : market) : Prop :=
  is_Some (m_key mk) ∧ Forall outcome_wf (default [] (m_outcomes mk)).

Definition bookmaker_wf (bk : bookmaker) : Prop :=
  is_Some (b_title bk) ∧ Forall market_wf (default [] (b_markets bk)).

Definition response_wf (r : response) : Prop :=
  Forall bookmaker_wf (default [] (r_bookmakers r)).

Definition event_wf (ev : event) : Prop :=
  is_Some (ev_id ev) ∧ is_Some (ev_home_team ev) ∧
  is_Some (ev_away_team ev) ∧ is_Some (ev_commence_time ev).

(** Every response that the odds API gives is well formed. *)
Definition responses_wf (w : world) : Prop :=
  ∀ k id r, net w k id = FetchJson r → response_wf r.

(** What a call of [normalize] adds to [built]. *)
Definition built_by (r : exn + prop_data) : list prop_data :=
  match r with
  | inr pd => [pd]
  | inl _ => []
  end.

(** A market whose first outcome has no price and whose second is fine. *)
Definition sample_bad_market : market :=
  {| m_key := Some "batter_hits"; m_last_update := None;
     m_outcomes := Some [sample_unpriced; sample_over] |}.

Definition sample_bad_response : response :=
  {| r_other_keys := 5;
     r_bookmakers :=
       Some [ {| b_title := Some "DraftKings"; b_last_update := None;
                 b_markets := Some [sample_bad_market] |} ] |}.


(** ** Traces *)

(** The machine after the effects [tr], [k] of them odds requests. *)
Definition advance (tr : list effect) (k : nat) (m : machine) : machine :=
  {| self := self m; events_summary := events_summary m;
     effects := effects m ++ tr; calls := calls m + k; built := built m |}.

Definition is_fetch (e : effect) : Prop :=
  match e with EFetch _ => True | _ => False end.

Global Instance is_fetch_dec e : Decision (is_fetch e).
Proof. destruct e; simpl; apply _. Defined.

Definition is_retry_sleep (e : effect) : Prop :=
  match e with ESleep Retry _ => True | _ => False end.

Global Instance is_retry_sleep_dec e : Decision (is_retry_sleep e).
Proof. destruct e as [| |[]|]; simpl; apply _. Defined.

(** What the attempts on one event may do: request that event's odds, or
    sleep 2 seconds at the retry site. *)
Definition attempt_effect (event_id : string) (e : effect) : Prop :=
  e = EFetch event_id ∨ e = ESleep Retry 2.

(** A world in which the listing has the single event ["e1"] and every odds
    request fails with a [RequestException]. *)
Definition unreachable_world : world :=
  {| env_api_key := Some "key"; now := "20240601_1700";
     listing := Some [sample_event "e1"];
     net := λ _ _, FetchFailed;
     workbook_ok := true; load_props_ok := true; analyzed_rows := Some 1%nat;
     cheat_sheets_file := λ f, Some f |}.

(** The same listing, every odds request raising something that is not a
    [RequestException]. *)
Definition raising_world : world :=
  {| env_api_key := Some "key"; now := "20240601_1700";
     listing := Some [sample_event "e1"];
     net := λ _ _, FetchRaised;
     workbook_ok := true; load_props_ok := true; analyzed_rows := Some 1%nat;
     cheat_sheets_file := λ f, Some f |}.


(** ** Pacing *)

Definition is_rate_sleep (e : effect) : Prop :=
  match e with ESleep RateLimit _ => True | _ => False end.

Global Instance is_rate_sleep_dec e : Decision (is_rate_sleep e).
Proof. destruct e as [| |[]|]; simpl; apply _. Defined.

(** The segments one after the other with [sep] between two neighbours:
    nothing before the first and nothing after the last. *)
Fixpoint join_with (sep : list effect) (segs : list (list effect)) : list effect :=
  match segs with
  | [] => []
  | seg :: rest =>
      match rest with
      | [] => seg
      | _ :: _ => seg ++ sep ++ join_with sep rest
      end
  end.

(** The effects of processing one event: at least one request for that
    event's odds, and besides such requests only retry sleeps. *)
Definition event_segment (ev : event) (seg : list effect) : Prop :=
  ∃ id, ev_id ev = Some id ∧ EFetch id ∈ seg ∧ Forall (attempt_effect id) seg.

(** An observation that only depends on the effect log and the request
    counter. *)
Definition world_only (I : machine → Prop) : Prop :=
  ∀ m1 m2, effects m1 = effects m2 → calls m1 = calls m2 → I m1 → I m2.


(** ** Runs of [main] *)

(** [if not API_KEY] is false. *)
Definition key_present (w : world) : Prop :=
  ∃ key, env_api_key w = Some key ∧ nonempty key = true.

(** [run_full_analysis] returns a file name that is true. *)
Definition analysis_ok (w : world) : Prop :=
  ∃ result_file,
    run_full_analysis w
      (String.append "MLB_Props_Cheat_Sheets_" (String.append (now w) ".xlsx"))
    = Some result_file ∧ nonempty result_file = true.

(** The machine when the loop over the events starts in a run from
    [boot f]: [self] reset and the listing requested. *)
Definition at_loop_start : machine :=
  {| self := reset; events_summary := []; effects := [EGetEvents];
     calls := 0; built := [] |}.

(** The loop over the listed events as [main] runs it. *)
Definition ingestion (w : world) (events : list event) : machine * (exn + unit) :=
  events_loop w (3 # 2) (length events) 1 events at_loop_start.

(** A world whose listing succeeds, whose only odds response carries an
    outcome without a price, and in which everything else works. *)
Definition malformed_world : world :=
  {| env_api_key := Some "key"; now := "20240601_1700";
     listing := Some [sample_event "e1"];
     net := λ _ _, FetchJson sample_bad_response;
     workbook_ok := true; load_props_ok := true; analyzed_rows := Some 1%nat;
     cheat_sheets_file := λ f, Some f |}.


(** [c] raises nothing but [KeyError]. *)
Definition raises_only_KeyError {A} (c : exec A) : Prop :=
  ∀ m e, (c m).2 = inl e → ∃ key, e = KeyError key.


(** ** The stats cache *)

Section CacheVocabulary.

Context {stats : Type} (upstream : nat → StatsCache.key → option stats).

(** The places between acquiring and releasing the lock. *)
Definition holds_lock (p : @StatsCache.pc stats) : Prop :=
  match p with
  | StatsCache.Checking | StatsCache.Fetching | StatsCache.Releasing _ => True
  | StatsCache.Waiting | StatsCache.Returned _ => False
  end.

(** What the place of worker [t] says about the shared state: a worker
    between acquire and release holds the lock; a fetch in flight is for a
    key not yet cached and is the latest upstream call; a value in hand is
    the cached one. *)
Definition worker_ok (s : @StatsCache.cache_state stats) (t : nat)
    (kp : StatsCache.key * @StatsCache.pc stats) : Prop :=
  match kp.2 with
  | StatsCache.Waiting => True
  | StatsCache.Checking => StatsCache.cache_lock s = Some t
  | StatsCache.Fetching =>
      StatsCache.cache_lock s = Some t ∧
      StatsCache.player_stats_cache s !! kp.1 = None ∧
      last (StatsCache.upstream_calls s) = Some kp.1
  | StatsCache.Releasing v =>
      StatsCache.cache_lock s = Some t ∧
      StatsCache.player_stats_cache s !! kp.1 = Some v
  | StatsCache.Returned v => StatsCache.player_stats_cache s !! kp.1 = Some v
  end.

(** The invariant of the cache machine for the given requests. *)
Definition cache_inv (requests : list StatsCache.key)
    (s : @StatsCache.cache_state stats) : Prop :=
  fst <$> StatsCache.workers s = requests ∧
  (∀ t kp, StatsCache.workers s !! t = Some kp → worker_ok s t kp) ∧
  NoDup (StatsCache.upstream_calls s) ∧
  (∀ k, k ∈ StatsCache.upstream_calls s → k ∈ requests) ∧
  (∀ k, k ∈ StatsCache.upstream_calls s ↔
        is_Some (StatsCache.player_stats_cache s !! k) ∨
        ∃ t, StatsCache.workers s !! t = Some (k, StatsCache.Fetching)) ∧
  (∀ k v, StatsCache.player_stats_cache s !! k = Some v →
          ∃ i, StatsCache.upstream_calls s !! i = Some k ∧
               v = StatsCache.resolve (upstream i k)).

End CacheVocabulary.


Section CacheSchedules.

Context {stats : Type} (upstream : nat → StatsCache.key → option stats).

(** The state in which the first [j] of [n] workers asking for [k] have
    returned and the others have not started. *)
Definition served (n j : nat) (k : StatsCache.key) : @StatsCache.cache_state stats :=
  let v := StatsCache.resolve (upstream 0 k) in
  {| StatsCache.player_stats_cache :=
       match j with 0 => ∅ | S _ => <[k := v]> ∅ end;
     StatsCache.cache_lock := None;
     StatsCache.upstream_calls := match j with 0 => [] | S _ => [k] end;
     StatsCache.workers :=
       replicate j (k, StatsCache.Returned v)
       ++ replicate (n - j) (k, StatsCache.Waiting) |}.

End CacheSchedules.

(** Three workers asking for the statistics of one player in one category,
    an upstream source that answers 42, and an interleaving in which worker
    1 gets the lock first while workers 0 and 2 try in between. *)
Definition sample_key : StatsCache.key := ("Player X", "batter_hits").

Definition sample_upstream : nat → StatsCache.key → option nat := λ _ _, Some 42.

Definition sample_schedule : list nat := [1; 1; 0; 1; 2; 1; 0; 0; 0; 2; 2; 2].


(** ** Failed attempts *)

(** An attempt that leaves [props_data] false: a caught
    [RequestException], an exception that escapes [get_event_props], or an
    empty JSON object. *)
Definition attempt_fails (a : fetch_outcome) : Prop :=
  match a with
  | FetchJson r => truthy (Some r) = false
  | FetchFailed | FetchRaised => True
  end.

(** ** One player's record along a sequence of ingests *)

(** What the calls for one player make of that player's entry of
    [unique_players], [o] being the entry before them. *)
Definition record_after (o : option player_record) (cs : list ingest_call)
  : option player_record :=
  foldl (λ o c, Some (add_prop (c_category c) (c_prop c) (default new_player o)))
        o cs.

(** The three sets of a record hold exactly the categories, games and
    bookmakers of its stored props, and the record has a stored prop. *)
Definition record_exact (r : player_record) : Prop :=
  props r ≠ [] ∧
  categories r = list_to_set (pi_category <$> props r) ∧
  games r = list_to_set (pi_game <$> props r) ∧
  bookmakers r = list_to_set (pi_bookmaker <$> props r).

(** ** The state as a function of the props built *)

(** Lines 261-270 applied to each built prop in turn, from the reset
    state. *)
Definition replay (ps : list prop_data) : fetcher :=
  foldl (λ f pd, ingest_prop (Category pd) pd f) reset ps.

(** The built props of one category whose side lowercases to ['over'], and
    those whose side lowercases to ['under'], in the order in which they
    were built. *)
Definition over_of (category : string) (ps : list prop_data) : list prop_data :=
  filter (λ pd, Category pd = category ∧ lower (Bet_Type pd) = "over") ps.

Definition under_of (category : string) (ps : list prop_data) : list prop_data :=
  filter (λ pd, Category pd = category ∧ lower (Bet_Type pd) = "under") ps.

(** An invariant that holds again after each built prop is ingested, and
    under which the bucket lists exist. *)
Definition ingest_closed (I : machine → Prop) : Prop :=
  aggregate_only I ∧
  (∀ m, I m → bucket_keys (self m)) ∧
  (∀ m pd, I m → I (with_aggregate (ingest_prop (Category pd) pd (self m)) pd m)).

(** [self] is what the props built so far make of the reset state. *)
Definition replayed (m : machine) : Prop := self m = replay (built m).

(** ** The summary sheet *)

(** The row that the summary sheet shows for a category after the props
    [ps] were built, the players of the category being [players]. *)
Definition expected_summary_row (ps : list prop_data) (players : nat)
    (category : string) : summary_row :=
  let total := length (over_of category ps) + length (under_of category ps) in
  {| sr_category := category;
     sr_over_count := length (over_of category ps);
     sr_under_count := length (under_of category ps);
     sr_total_count := total;
     sr_players := players;
     sr_status := if bool_decide (0 < total)%nat then "✅ Active" else "❌ No Data";
     sr_color := if bool_decide (0 < total)%nat
                 then default "FFFFFF" (category_colors !! category)
                 else "FFE6E6" |}.

(** ** The players sheet *)

Definition str_lt (a b : string) : Prop := String.ltb a b = true.

(** The number of stored props over all players. *)
Definition total_props (u : gmap string player_record) : nat :=
  sum_list_with (λ kv, length (props kv.2)) (map_to_list u).

(** The calls of [process_player_data] that the built props stand for. *)
Definition calls_of (ps : list prop_data) : list ingest_call :=
  (λ pd, IngestCall (Player pd) (Category pd) pd) <$> ps.

(** A world whose first odds request fails and whose later requests give
    the sample response. *)
Definition flaky_world : world :=
  {| env_api_key := Some "key"; now := "20240601_1700";
     listing := Some [sample_event "e1"];
     net := λ k _, match k with 0 => FetchFailed | S _ => FetchJson sample_response end;
     workbook_ok := true; load_props_ok := true; analyzed_rows := Some 1%nat;
     cheat_sheets_file := λ f, Some f |}.

(** ** Accounting for a run *)


(** The events that the loop runs over (lines 196-197). *)
Definition limit_events (max_events : option Z) (events : list event)
  : list event :=
  match max_events with
  | Some k => if (k =? 0)%Z then events else slice_to k events
  | None => events
  end.



(** The file name that the run writes to (lines 282-284). *)
Definition workbook_name (w : world) (filename : option string) : string :=
  match filename with
  | None => String.append "mlb_props_" (String.append (now w) ".xlsx")
  | Some name => name
  end.

(** A listing of two games, every odds request answered with
    [sample_response]. *)
Definition two_game_world : world :=
  {| env_api_key := Some "key"; now := "20240601_1700";
     listing := Some [sample_event "e1"; sample_event "e2"];
     net := λ _ _, FetchJson sample_response;
     workbook_ok := true; load_props_ok := true; analyzed_rows := Some 1%nat;
     cheat_sheets_file := λ f, Some f |}.

(** The state in which the loop over the events starts: [self] reset, the
    listing requested. *)
Definition loop_start (m : machine) : machine :=
  {| self := reset; events_summary := [];
     effects := effects m ++ [EGetEvents]; calls := calls m; built := built m |}.

(** ** The individual category sheets *)

(** The sheets of one side when the bucket of category [c] is [sel c]. *)
Definition sheets_of (bet_type : string) (sel : string → list prop_data)
    (cats : list string) : list category_sheet :=
  omap (λ c, match sel c with
             | [] => None
             | _ :: _ =>
                 Some (create_individual_category_sheet c bet_type (sel c))
             end) cats.

(** The name of a sheet before it is cut to 31 characters. *)
Definition full_sheet_name (category bet_type : string) : string :=
  String.append (String.substring 0 1 bet_type)
    (String.append "-" (title (underscores_to_spaces category))).

(* ===================================================================== *)
(** * Part III: properties *)
(* ===================================================================== *)

(** ** The player aggregator *)

Lemma process_player_data_lookup player_name category pd f :
  unique_players (process_player_data player_name category pd f) !! player_name
  = Some (add_prop category pd (default new_player (unique_players f !! player_name))).
Proof.
  unfold process_player_data; simpl.
  destruct (unique_players f !! player_name) as [r|] eqn:E; simpl.
  - by rewrite lookup_alter_eq, E.
  - by rewrite lookup_alter_eq, lookup_insert_eq.
Qed.

Lemma process_player_data_lookup_ne player_name other category pd f :
  player_name ≠ other →
  unique_players (process_player_data player_name category pd f) !! other
  = unique_players f !! other.
Proof.
  intros Hne. unfold process_player_data; simpl.
  destruct (unique_players f !! player_name) as [r|] eqn:E; simpl.
  - by rewrite lookup_alter_ne.
  - by rewrite lookup_alter_ne, lookup_insert_ne.
Qed.

Lemma process_player_data_buckets player_name category pd f :
  over_props (process_player_data player_name category pd f) = over_props f ∧
  under_props (process_player_data player_name category pd f) = under_props f.
Proof. done. Qed.

Lemma props_of_ingest f c player_name :
  props_of (ingest f c) player_name
  = props_of f player_name
    ++ (if decide (c_player c = player_name)
        then [make_prop_info (c_category c) (c_prop c)] else []).
Proof.
  unfold props_of, ingest. destruct (decide (c_player c = player_name)) as [<-|Hne].
  - rewrite process_player_data_lookup.
    by destruct (unique_players f !! c_player c).
  - rewrite process_player_data_lookup_ne by done. by rewrite app_nil_r.
Qed.

Lemma props_of_ingest_all cs f player_name :
  props_of (ingest_all cs f) player_name
  = props_of f player_name
    ++ ((λ c, make_prop_info (c_category c) (c_prop c)) <$> calls_for player_name cs).
Proof.
  revert f. induction cs as [|c cs IH]; intros f; simpl.
  - by rewrite app_nil_r.
  - unfold ingest_all in *; simpl. rewrite IH, props_of_ingest.
    unfold calls_for. rewrite filter_cons.
    destruct (decide (c_player c = player_name)); simpl.
    + by rewrite <- app_assoc.
    + by rewrite app_nil_r.
Qed.

(** C5: for every player name, after any sequence of ingests from the
    start of a run, the length of the player's stored props list is the
    number of ingested props with exactly that name; ingesting the same
    prop twice stores it twice. *)
Theorem aggregation_completeness :
  (∀ (cs : list ingest_call) (player_name : string),
     length (props_of (ingest_all cs reset) player_name)
     = length (calls_for player_name cs)) ∧
  (∀ (f : fetcher) (c : ingest_call),
     props_of (ingest (ingest f c) c) (c_player c)
     = props_of f (c_player c)
       ++ [make_prop_info (c_category c) (c_prop c);
           make_prop_info (c_category c) (c_prop c)]).
Proof.
  split.
  - intros cs player_name. rewrite props_of_ingest_all.
    rewrite length_app, length_fmap. done.
  - intros f c. rewrite !props_of_ingest.
    destruct (decide (c_player c = c_player c)); [|done].
    by rewrite <- app_assoc.
Qed.

Lemma add_prop_consistent category pd r :
  record_consistent r → record_consistent (add_prop category pd r).
Proof.
  intros Hr p. unfold add_prop; simpl. rewrite elem_of_app, list_elem_of_singleton.
  intros [Hp | ->].
  - destruct (Hr p Hp) as (Hc & Hg & Hb).
    repeat split; apply elem_of_union; by left.
  - simpl. repeat split; apply elem_of_union; right; by apply elem_of_singleton.
Qed.

Lemma new_player_consistent : record_consistent new_player.
Proof. intros p Hp. simpl in Hp. by apply elem_of_nil in Hp. Qed.

Lemma process_player_data_consistent player_name category pd f :
  players_consistent f →
  players_consistent (process_player_data player_name category pd f).
Proof.
  intros Hf other r. destruct (decide (player_name = other)) as [<-|Hne].
  - rewrite process_player_data_lookup. intros [= <-].
    apply add_prop_consistent.
    destruct (unique_players f !! player_name) eqn:E; simpl.
    + by eapply Hf.
    + apply new_player_consistent.
  - rewrite process_player_data_lookup_ne by done. apply Hf.
Qed.

Lemma reset_consistent : players_consistent reset.
Proof. intros n r. simpl. by rewrite lookup_empty. Qed.

Lemma ingest_all_consistent cs f :
  players_consistent f → players_consistent (ingest_all cs f).
Proof.
  revert f. induction cs as [|c cs IH]; intros f Hf; [done|].
  apply IH, process_player_data_consistent, Hf.
Qed.

(** C10: at every point of an ingestion, that is after any sequence of
    ingests from the start of a run, each prop stored for a player has its
    category in the player's categories, its game in the player's games and
    its bookmaker in the player's bookmakers. *)
Theorem ingestion_keeps_players_consistent (cs : list ingest_call) :
  players_consistent (ingest_all cs reset).
Proof. apply ingest_all_consistent, reset_consistent. Qed.

(** ** Reasoning rules of the monad *)

Lemma keeps_ret {A} I (a : A) : keeps I (ret a).
Proof. by intros m Hm. Qed.

Lemma keeps_raise {A} I e : keeps I (@raise A e).
Proof. by intros m Hm. Qed.

Lemma keeps_lift {A} I (r : exn + A) : keeps I (lift r).
Proof. by intros m Hm. Qed.

Lemma keeps_bind {A B} I (c : exec A) (k : A → exec B) :
  keeps I c → (∀ a, keeps I (k a)) → keeps I (bind c k).
Proof.
  intros Hc Hk m Hm. unfold bind. specialize (Hc m Hm).
  destruct (c m) as [m' [e|a]]; simpl in *; [done|]. by apply Hk.
Qed.

Lemma keeps_try_except {A} I (c h : exec A) :
  keeps I c → keeps I h → keeps I (try_except c h).
Proof.
  intros Hc Hh m Hm. unfold try_except. specialize (Hc m Hm).
  destruct (c m) as [m' [[]|a]]; simpl in *; try done; by apply Hh.
Qed.

Lemma keeps_getitem {A} I (field : option A) key : keeps I (getitem field key).
Proof. destruct field; [apply keeps_ret | apply keeps_raise]. Qed.

Lemma keeps_for_each {A} I (body : A → exec unit) xs :
  (∀ x, keeps I (body x)) → keeps I (for_each body xs).
Proof.
  intros Hb. induction xs as [|x xs IH]; simpl.
  - apply keeps_ret.
  - apply keeps_bind; [apply Hb | intros _; apply IH].
Qed.

Lemma keeps_emit I e : aggregate_only I → keeps I (emit e).
Proof. intros HI m Hm. by apply (HI m). Qed.

Lemma keeps_sleep I site d : aggregate_only I → keeps I (sleep site d).
Proof. apply keeps_emit. Qed.

Lemma keeps_append_summary I s : aggregate_only I → keeps I (append_summary s).
Proof. intros HI m Hm. by apply (HI m). Qed.

Lemma keeps_clear_summary I : aggregate_only I → keeps I clear_summary.
Proof. intros HI m Hm. by apply (HI m). Qed.

Lemma keeps_get_event_props I w event_id :
  aggregate_only I → keeps I (get_event_props w event_id).
Proof.
  intros HI m Hm. unfold get_event_props.
  destruct (net w (calls m) event_id); simpl; by apply (HI m).
Qed.

Lemma keeps_retry_loop I w event_id retries props_data :
  aggregate_only I → keeps I (retry_loop w event_id retries props_data).
Proof.
  intros HI. revert props_data.
  induction retries as [|retry rest IH]; intros props_data; simpl.
  - apply keeps_ret.
  - apply keeps_bind.
    + apply keeps_try_except.
      * apply keeps_bind; [by apply keeps_get_event_props|].
        intros; apply keeps_ret.
      * apply keeps_bind; [|intros; apply keeps_ret].
        case_bool_decide; [by apply keeps_sleep | apply keeps_ret].
    + intros [pd []]; simpl; [apply keeps_ret | apply IH].
Qed.

(** ** The buckets *)

Lemma length_filter_eq_iff {A} (P : A → Prop) `{!∀ x, Decision (P x)} (l : list A) :
  length (filter P l) = length l ↔ Forall P l.
Proof.
  induction l as [|x l IH].
  - split; [constructor | done].
  - rewrite filter_cons. destruct (decide (P x)) as [Hx|Hx]; simpl.
    + rewrite Forall_cons. split.
      * intros [= Hl]. split; [done | by apply IH].
      * intros [_ Hl]. f_equal. by apply IH.
    + split.
      * intros Hl. pose proof (length_filter P l). lia.
      * intros Hl. by apply Forall_cons in Hl as [? _].
Qed.

Lemma bucket_total_append b k l pd :
  b !! k = Some l →
  bucket_total (<[k := l ++ [pd]]> b) = S (bucket_total b).
Proof.
  intros Hk. unfold bucket_total.
  rewrite <- (insert_delete_eq b k (l ++ [pd])).
  rewrite map_to_list_insert by apply lookup_delete_eq.
  rewrite <- (insert_delete_id b k l Hk) at 2.
  rewrite (map_to_list_insert (delete k b)) by apply lookup_delete_eq.
  simpl. rewrite length_app. simpl. lia.
Qed.

Lemma empty_buckets_lookup k :
  k ∈ prop_categories → empty_buckets !! k = Some [].
Proof.
  intros Hk. unfold empty_buckets. apply elem_of_list_to_map_1'.
  - intros y Hy. apply list_elem_of_fmap in Hy as (c & [= _ ->] & _). done.
  - apply list_elem_of_fmap. by exists k.
Qed.

Lemma reset_bucket_keys : bucket_keys reset.
Proof. intros k Hk. simpl. rewrite empty_buckets_lookup by done. eauto. Qed.

Lemma bucket_total_empty_buckets : bucket_total empty_buckets = 0.
Proof. by vm_compute. Qed.

Lemma append_bucket_is_Some market_key pd b k :
  is_Some (b !! k) → is_Some (append_bucket market_key pd b !! k).
Proof.
  intros Hk. unfold append_bucket.
  destruct (b !! market_key) as [l|] eqn:E; [|done].
  destruct (decide (market_key = k)) as [->|Hne].
  - rewrite lookup_insert_eq. eauto.
  - by rewrite lookup_insert_ne.
Qed.

Lemma ingest_prop_bucket_keys market_key pd f :
  bucket_keys f → bucket_keys (ingest_prop market_key pd f).
Proof.
  intros Hf k Hk. destruct (Hf k Hk) as [Ho Hu].
  unfold ingest_prop, routed.
  repeat case_bool_decide; simpl; split;
    try done; by apply append_bucket_is_Some.
Qed.

Lemma ingest_prop_total market_key pd f :
  bucket_keys f → Category pd = market_key →
  total_buckets (ingest_prop market_key pd f)
  = total_buckets f + (if decide (recognized pd) then 1 else 0).
Proof.
  intros Hf <-. unfold ingest_prop, routed, total_buckets, recognized.
  case_bool_decide as Hcat; simpl.
  - destruct (Hf _ Hcat) as [[lo Ho] [lu Hu]].
    case_bool_decide as Hover; simpl.
    + unfold append_bucket. rewrite Ho, (bucket_total_append _ _ _ _ Ho).
      rewrite decide_True by auto. lia.
    + case_bool_decide as Hunder; simpl.
      * unfold append_bucket. rewrite Hu, (bucket_total_append _ _ _ _ Hu).
        rewrite decide_True by auto. lia.
      * rewrite decide_False by (intros [_ [?|?]]; done). lia.
  - rewrite decide_False by (intros [? _]; done). lia.
Qed.

(** ** One outcome *)

Lemma normalize_inr event_id game commence_time bookmaker_name bk market_key mk o pd :
  normalize event_id game commence_time bookmaker_name bk market_key mk o = inr pd →
  o_name o = Some (Bet_Type pd) ∧ o_price o = Some (Odds pd) ∧
  Category pd = market_key ∧ Player pd = default "Unknown" (o_description o).
Proof.
  unfold normalize. destruct (o_name o), (o_price o); try done.
  by intros [= <-].
Qed.

Lemma process_outcome_normalized event_id game commence_time bookmaker_name bk
    market_key mk o pd m :
  normalize event_id game commence_time bookmaker_name bk market_key mk o = inr pd →
  bucket_keys (self m) →
  process_outcome event_id game commence_time bookmaker_name bk market_key mk o m
  = (with_aggregate (ingest_prop market_key pd (self m)) pd m, inr tt).
Proof.
  intros Hn Hkeys. apply normalize_inr in Hn as Hpd. destruct Hpd as (Hname & _ & _ & _).
  unfold process_outcome, bind at 1, lift. rewrite Hn.
  unfold bind, record_built, modify_self; simpl.
  unfold route, ingest_prop, routed, with_aggregate.
  case_bool_decide as Hcat; [|done].
  destruct (Hkeys _ Hcat) as [[lo Ho] [lu Hu]].
  unfold bind, getitem. rewrite Hname; simpl.
  case_bool_decide as Hover.
  - unfold append_over, bind, lift, place, append_bucket; simpl. by rewrite Ho.
  - case_bool_decide as Hunder; [|done].
    unfold append_under, bind, lift, place, append_bucket; simpl. by rewrite Hu.
Qed.

Lemma process_outcome_malformed event_id game commence_time bookmaker_name bk
    market_key mk o e m :
  normalize event_id game commence_time bookmaker_name bk market_key mk o = inl e →
  process_outcome event_id game commence_time bookmaker_name bk market_key mk o m
  = (m, inl e).
Proof. intros Hn. unfold process_outcome, bind, lift. by rewrite Hn. Qed.

Lemma append_bucket_changes market_key pd b :
  is_Some (b !! market_key) → append_bucket market_key pd b ≠ b.
Proof.
  intros [l Hl] Heq. unfold append_bucket in Heq. rewrite Hl in Heq.
  assert (Hlk : <[market_key := l ++ [pd]]> b !! market_key = Some l)
    by (by rewrite Heq).
  rewrite lookup_insert_eq in Hlk. injection Hlk as Hlk.
  apply (f_equal length) in Hlk. rewrite length_app in Hlk. simpl in Hlk. lia.
Qed.

Lemma placed_in_changes market_key pd before after :
  placed_in market_key pd before after → after ≠ before.
Proof.
  intros (l & Hl & ->) Heq.
  apply (append_bucket_changes market_key pd before); [eauto|].
  unfold append_bucket. by rewrite Hl.
Qed.

Lemma append_bucket_placed market_key pd b :
  is_Some (b !! market_key) →
  placed_in market_key pd b (append_bucket market_key pd b).
Proof.
  intros [l Hl]. exists l. split; [done|]. unfold append_bucket. by rewrite Hl.
Qed.

Local Ltac route_cases :=
  repeat match goal with
         | |- _ ∧ _ => split
         | |- _ ↔ _ => split
         end;
  try done; try tauto;
  try (intros _; by apply append_bucket_placed);
  try (let Hp := fresh in intros Hp; by apply placed_in_changes in Hp).

(** C3: a processed outcome's prop record goes into the Over bucket of its
    market key exactly when the side lowercases to ['over'] and the key is
    one of the 12 categories, into the Under bucket exactly when the side
    lowercases to ['under'] and the key is one of the 12; otherwise both
    bucket dictionaries are left as they were.  In every case the outcome
    returns without raising and the player aggregate is updated. *)
Theorem routing_iff_side_and_category
    (event_id game commence_time bookmaker_name : string) (bk : bookmaker)
    (market_key : string) (mk : market) (o : outcome) (pd : prop_data)
    (m : machine) :
  bucket_keys (self m) →
  normalize event_id game commence_time bookmaker_name bk market_key mk o = inr pd →
  let r := process_outcome event_id game commence_time bookmaker_name bk
             market_key mk o m in
  let is_over := lower (Bet_Type pd) = "over" ∧ market_key ∈ prop_categories in
  let is_under := lower (Bet_Type pd) = "under" ∧ market_key ∈ prop_categories in
  r.2 = inr tt ∧
  (placed_in market_key pd (over_props (self m)) (over_props (self r.1)) ↔ is_over) ∧
  (placed_in market_key pd (under_props (self m)) (under_props (self r.1)) ↔ is_under) ∧
  (¬ is_over → over_props (self r.1) = over_props (self m)) ∧
  (¬ is_under → under_props (self r.1) = under_props (self m)) ∧
  unique_players (self r.1)
  = unique_players (process_player_data (Player pd) market_key pd (self m)).
Proof.
  intros Hkeys Hn. simpl.
  rewrite (process_outcome_normalized _ _ _ _ _ _ _ _ _ _ Hn Hkeys). simpl.
  unfold ingest_prop, routed.
  case_bool_decide as Hcat; simpl.
  - destruct (Hkeys _ Hcat) as [Ho Hu].
    case_bool_decide as Hover; simpl.
    + assert (Hnu : lower (Bet_Type pd) ≠ "under") by (by rewrite Hover).
      route_cases.
    + case_bool_decide as Hunder; simpl; route_cases.
  - route_cases.
Qed.

Lemma routing_iff_side_and_category_witness :
  bucket_keys (self (boot reset)) ∧
  normalize "e1" "A @ B" "2024-06-01T23:05:00Z" "DraftKings" sample_bookmaker
    "batter_hits" sample_market sample_over = inr sample_over_prop ∧
  let r := process_outcome "e1" "A @ B" "2024-06-01T23:05:00Z" "DraftKings"
             sample_bookmaker "batter_hits" sample_market sample_over
             (boot reset) in
  let is_over := lower "Over" = "over" ∧ "batter_hits" ∈ prop_categories in
  let is_under := lower "Over" = "under" ∧ "batter_hits" ∈ prop_categories in
  r.2 = inr tt ∧
  (placed_in "batter_hits" sample_over_prop empty_buckets (over_props (self r.1))
   ↔ is_over) ∧
  (placed_in "batter_hits" sample_over_prop empty_buckets (under_props (self r.1))
   ↔ is_under) ∧
  (¬ is_over → over_props (self r.1) = empty_buckets) ∧
  (¬ is_under → under_props (self r.1) = empty_buckets) ∧
  unique_players (self r.1)
  = unique_players
      (process_player_data "Player X" "batter_hits" sample_over_prop reset).
Proof.
  split; [apply reset_bucket_keys|]. split; [reflexivity|].
  apply (routing_iff_side_and_category "e1" "A @ B" "2024-06-01T23:05:00Z"
           "DraftKings" sample_bookmaker "batter_hits" sample_market
           sample_over sample_over_prop (boot reset)).
  - apply reset_bucket_keys.
  - reflexivity.
Defined.

(** ** The invariant of the ingestion loop *)

Lemma ingestion_inv_aggregate_only : aggregate_only ingestion_inv.
Proof. intros m1 m2 Hs Hb. unfold ingestion_inv. by rewrite Hs, Hb. Qed.

Lemma ingestion_inv_boot_reset : ingestion_inv (boot reset).
Proof.
  split_and!.
  - apply reset_bucket_keys.
  - unfold total_buckets; simpl. by rewrite bucket_total_empty_buckets.
  - apply reset_consistent.
  - done.
Qed.

Lemma routed_unique_players market_key pd f :
  unique_players (routed market_key pd f) = unique_players f.
Proof. unfold routed. by repeat case_bool_decide. Qed.

Lemma props_of_ingest_prop market_key pd f player_name :
  props_of (ingest_prop market_key pd f) player_name
  = props_of f player_name
    ++ (if decide (Player pd = player_name)
        then [make_prop_info market_key pd] else []).
Proof.
  unfold props_of at 1, ingest_prop. rewrite routed_unique_players.
  apply (props_of_ingest f (IngestCall (Player pd) market_key pd)).
Qed.

Lemma keeps_process_outcome event_id game commence_time bookmaker_name bk
    market_key mk o :
  keeps ingestion_inv
    (process_outcome event_id game commence_time bookmaker_name bk market_key mk o).
Proof.
  intros m (Hkeys & Hcount & Hcons & Hstored).
  destruct (normalize event_id game commence_time bookmaker_name bk market_key mk o)
    as [e|pd] eqn:Hn.
  - by rewrite (process_outcome_malformed _ _ _ _ _ _ _ _ _ _ Hn).
  - rewrite (process_outcome_normalized _ _ _ _ _ _ _ _ _ _ Hn Hkeys). simpl.
    apply normalize_inr in Hn as (_ & _ & Hcat & _).
    split_and!; simpl.
    + by apply ingest_prop_bucket_keys.
    + rewrite ingest_prop_total by done. rewrite Hcount, filter_app, length_app.
      f_equal. rewrite filter_cons, filter_nil. by destruct (decide (recognized pd)).
    + intros player_name r. unfold ingest_prop.
      rewrite routed_unique_players.
      by apply process_player_data_consistent.
    + intros player_name. rewrite props_of_ingest_prop, Hstored.
      unfold stored_for. rewrite filter_app, fmap_app, filter_cons, filter_nil.
      destruct (decide (Player pd = player_name)); simpl; by rewrite ?Hcat.
Qed.

Lemma keeps_process_response event_id game commence_time r :
  keeps ingestion_inv (process_response event_id game commence_time r).
Proof.
  apply keeps_for_each. intros bk.
  apply keeps_bind; [apply keeps_getitem|]. intros bookmaker_name.
  apply keeps_for_each. intros mk.
  apply keeps_bind; [apply keeps_getitem|]. intros market_key.
  apply keeps_for_each. intros o. apply keeps_process_outcome.
Qed.

Lemma keeps_process_event w delay n i ev :
  keeps ingestion_inv (process_event w delay n i ev).
Proof.
  pose proof ingestion_inv_aggregate_only as HI.
  unfold process_event.
  repeat (apply keeps_bind; [apply keeps_getitem|]; intros ?).
  apply keeps_bind; [by apply keeps_append_summary|]. intros _.
  apply keeps_bind; [by apply keeps_retry_loop|]. intros props_data.
  apply keeps_bind.
  - destruct props_data as [r|]; [|apply keeps_ret].
    destruct (truthy (Some r)); [apply keeps_process_response | apply keeps_ret].
  - intros _. case_bool_decide; [by apply keeps_sleep | apply keeps_ret].
Qed.

Lemma keeps_events_loop w delay n i events :
  keeps ingestion_inv (events_loop w delay n i events).
Proof.
  revert i. induction events as [|ev rest IH]; intros i; simpl.
  - apply keeps_ret.
  - apply keeps_bind; [apply keeps_process_event | intros _; apply IH].
Qed.

Lemma keeps_create_excel_workbook I w filename :
  aggregate_only I → keeps I (create_excel_workbook w filename).
Proof.
  intros HI. apply keeps_bind; [by apply keeps_emit|]. intros _.
  destruct (workbook_ok w); [apply keeps_ret | apply keeps_raise].
Qed.

Lemma keeps_get_mlb_events I w : aggregate_only I → keeps I (get_mlb_events w).
Proof.
  intros HI. apply keeps_bind; [by apply keeps_emit | intros; apply keeps_ret].
Qed.

(** A first step that establishes [I] from [J] and returns, followed by
    code that keeps [I]. *)
Lemma keeps_after {A B} (I J : machine → Prop) (c : exec A) (k : A → exec B) :
  (∀ m, J m → I (c m).1 ∧ ∃ a, (c m).2 = inr a) →
  (∀ a, keeps I (k a)) →
  ∀ m, J m → I (bind c k m).1.
Proof.
  intros Hc Hk m Hm. unfold bind. destruct (Hc m Hm) as [HI [a Ha]].
  destruct (c m) as [m' [e|a']]; simpl in *; [done|]. by apply Hk.
Qed.

Lemma fetch_all_props_to_excel_inv w max_events delay filename f :
  ingestion_inv (fetch_all_props_to_excel w max_events delay filename (boot f)).1.
Proof.
  pose proof ingestion_inv_aggregate_only as HI.
  unfold fetch_all_props_to_excel.
  apply (keeps_after ingestion_inv (λ m, built m = [])); [| |done].
  - intros m Hm. split; [|by exists tt].
    by apply (HI (boot reset)); [..|apply ingestion_inv_boot_reset].
  - intros _. apply keeps_bind; [by apply keeps_get_mlb_events|].
    intros [|ev events]; [apply keeps_ret|].
    apply keeps_bind; [by apply keeps_clear_summary|]. intros _.
    apply keeps_bind; [apply keeps_events_loop|]. intros _.
    apply keeps_try_except; [|apply keeps_ret].
    apply keeps_bind; [by apply keeps_create_excel_workbook|].
    intros _. apply keeps_ret.
Qed.

(** At the end of a run every player's stored list is what the props built
    during the run put there, and every player record is consistent. *)
Lemma run_aggregate_matches_built w max_events delay filename f :
  let m := (fetch_all_props_to_excel w max_events delay filename (boot f)).1 in
  players_consistent (self m) ∧
  ∀ player_name,
    props_of (self m) player_name = stored_for player_name (built m) ∧
    length (props_of (self m) player_name)
    = length (filter (λ pd, Player pd = player_name) (built m)).
Proof.
  intros m.
  destruct (fetch_all_props_to_excel_inv w max_events delay filename f)
    as (_ & _ & Hcons & Hstored).
  split; [done|]. intros player_name. split; [apply Hstored|].
  unfold m. rewrite Hstored. unfold stored_for. by rewrite length_fmap.
Qed.

(** C4: at the end of every run of [fetch_all_props_to_excel], however it
    ends, the sum of the lengths of all Over and Under bucket lists is at
    most the number of props built during the run, with equality exactly
    when every one of them has a side lowercasing to ['over'] or ['under']
    and a market key among the 12 categories. *)
Theorem bucket_total_bounded_by_props
    (w : world) (max_events : option Z) (delay_between_requests : Q)
    (filename : option string) (f : fetcher) :
  let m := (fetch_all_props_to_excel w max_events delay_between_requests
              filename (boot f)).1 in
  (total_buckets (self m) ≤ length (built m))%nat ∧
  (total_buckets (self m) = length (built m) ↔ Forall recognized (built m)).
Proof.
  intros m.
  destruct (fetch_all_props_to_excel_inv w max_events
              delay_between_requests filename f) as (_ & Hcount & _).
  fold m in Hcount. rewrite Hcount. split.
  - apply length_filter.
  - apply length_filter_eq_iff.
Qed.

(** ** The normalizer *)

Lemma process_outcome_built event_id game commence_time bookmaker_name bk
    market_key mk o m :
  built (process_outcome event_id game commence_time bookmaker_name bk
           market_key mk o m).1
  = built m
    ++ built_by (normalize event_id game commence_time bookmaker_name bk
                   market_key mk o).
Proof.
  unfold process_outcome, bind at 1, lift.
  destruct (normalize event_id game commence_time bookmaker_name bk market_key mk o)
    as [e|pd]; simpl; [by rewrite app_nil_r|].
  unfold bind, record_built, modify_self, route; simpl.
  case_bool_decide; [|done].
  unfold bind, getitem. destruct (o_name o) as [name|]; [|done]. simpl.
  unfold append_over, append_under, bind, lift, place; simpl.
  repeat case_bool_decide; try done;
    match goal with
    | |- context [?b !! market_key] => by destruct (b !! market_key)
    end.
Qed.

(** C6: normalization maps the raw fields one by one: the description
    becomes the player name, ["Unknown"] when absent; the name becomes the
    side; the point becomes the line, the sentinel ["N/A"] when absent; the
    price becomes the odds and has no default, an outcome without name or
    price raising [KeyError] instead.  The record does not depend on the
    state in which the outcome is processed: in any two states the same
    record is built. *)
Theorem normalization_maps_fields
    (event_id game commence_time bookmaker_name : string) (bk : bookmaker)
    (market_key : string) (mk : market) (o : outcome) (m1 m2 : machine) :
  let r := normalize event_id game commence_time bookmaker_name bk
             market_key mk o in
  match o_name o, o_price o with
  | Some name, Some price =>
      ∃ pd, r = inr pd ∧
        Player pd = default "Unknown" (o_description o) ∧
        Bet_Type pd = name ∧
        Line pd = default (PyStr "N/A") (o_point o) ∧
        Odds pd = price ∧
        Category pd = market_key ∧ Bookmaker_ pd = bookmaker_name ∧
        Event_ID pd = event_id ∧ Game pd = game ∧ Game_Time pd = commence_time
  | None, _ => r = inl (KeyError "name")
  | Some _, None => r = inl (KeyError "price")
  end ∧
  built (process_outcome event_id game commence_time bookmaker_name bk
           market_key mk o m1).1 = built m1 ++ built_by r ∧
  built (process_outcome event_id game commence_time bookmaker_name bk
           market_key mk o m2).1 = built m2 ++ built_by r.
Proof.
  intros r. split; [|split; apply process_outcome_built].
  unfold r, normalize. destruct (o_name o) as [name|]; [|done].
  destruct (o_price o) as [price|]; [|done].
  eexists. split; [done|]. by repeat split.
Qed.

(** ** Outcomes that lack a required key *)

Lemma normalize_missing event_id game commence_time bookmaker_name bk market_key
    mk o k :
  missing_required o = Some k →
  normalize event_id game commence_time bookmaker_name bk market_key mk o
  = inl (KeyError k).
Proof.
  unfold missing_required, normalize.
  destruct (o_name o), (o_price o); by intros [= <-].
Qed.

Lemma normalize_wf event_id game commence_time bookmaker_name bk market_key mk o :
  outcome_wf o →
  ∃ pd, normalize event_id game commence_time bookmaker_name bk market_key mk o
        = inr pd.
Proof.
  unfold outcome_wf, missing_required, normalize.
  destruct (o_name o), (o_price o); try done. eauto.
Qed.

(** C2 (amended): in a market whose outcomes before [o] all have a name and
    a price while [o] lacks one of them, the loop over the outcomes raises
    [KeyError] for the missing key at [o]: the outcomes before [o] have been
    processed without raising and stay aggregated, [o] itself and the
    outcomes after it leave no trace in the state. *)
Theorem malformed_outcome_raises
    (event_id game commence_time bookmaker_name : string) (bk : bookmaker)
    (market_key : string) (mk : market)
    (before after : list outcome) (o : outcome) (k : string) (m : machine) :
  bucket_keys (self m) →
  Forall outcome_wf before →
  missing_required o = Some k →
  let loop := for_each (process_outcome event_id game commence_time
                          bookmaker_name bk market_key mk) in
  (loop before m).2 = inr tt ∧
  loop (before ++ o :: after) m = ((loop before m).1, inl (KeyError k)).
Proof.
  intros Hkeys Hwf Hmiss loop. unfold loop; clear loop.
  revert m Hkeys. induction Hwf as [|o' before Ho' _ IH]; intros m Hkeys; simpl.
  - split; [done|]. unfold bind.
    rewrite (process_outcome_malformed _ _ _ _ _ _ _ _ _ _
               (normalize_missing event_id game commence_time bookmaker_name bk
                  market_key mk o k Hmiss)).
    done.
  - destruct (normalize_wf event_id game commence_time bookmaker_name bk
                market_key mk o' Ho') as [pd Hpd].
    unfold bind.
    rewrite (process_outcome_normalized _ _ _ _ _ _ _ _ _ _ Hpd Hkeys).
    apply IH. simpl. by apply ingest_prop_bucket_keys.
Qed.

Lemma malformed_outcome_raises_witness :
  bucket_keys (self (boot reset)) ∧
  Forall outcome_wf [sample_over] ∧
  missing_required sample_unpriced = Some "price" ∧
  let loop := for_each (process_outcome "e1" "A @ B" "2024-06-01T23:05:00Z"
                          "DraftKings" sample_bookmaker "batter_hits"
                          sample_market) in
  (loop [sample_over] (boot reset)).2 = inr tt ∧
  loop ([sample_over] ++ sample_unpriced :: [sample_under]) (boot reset)
  = ((loop [sample_over] (boot reset)).1, inl (KeyError "price")).
Proof.
  split; [apply reset_bucket_keys|].
  split; [by repeat constructor|].
  split; [reflexivity|].
  apply (malformed_outcome_raises "e1" "A @ B" "2024-06-01T23:05:00Z"
           "DraftKings" sample_bookmaker "batter_hits" sample_market
           [sample_over] [sample_under] sample_unpriced "price" (boot reset)).
  - apply reset_bucket_keys.
  - by repeat constructor.
  - reflexivity.
Defined.

(** C2 as stated fails: a response whose market holds an outcome without a
    price and then a complete one.  Processing raises [KeyError] instead of
    skipping the first outcome, and the complete sibling after it is neither
    built nor aggregated. *)
Lemma malformed_outcome_not_skipped :
  let r := process_response "e1" "A @ B" "2024-06-01T23:05:00Z"
             sample_bad_response (boot reset) in
  r.2 = inl (KeyError "price") ∧
  built r.1 = [] ∧
  props_of (self r.1) "Player X" = [] ∧
  total_buckets (self r.1) = 0.
Proof. by vm_compute. Qed.

(** ** The retry loop *)

Lemma advance_nil m : advance [] 0 m = m.
Proof. destruct m. unfold advance; simpl. by rewrite app_nil_r, Nat.add_0_r. Qed.

Lemma advance_advance tr1 k1 tr2 k2 m :
  advance tr2 k2 (advance tr1 k1 m) = advance (tr1 ++ tr2) (k1 + k2) m.
Proof. unfold advance; simpl. by rewrite <- app_assoc, Nat.add_assoc. Qed.

Lemma get_event_props_eq w event_id m :
  get_event_props w event_id m
  = (advance [EFetch event_id] 1 m,
     match net w (calls m) event_id with
     | FetchJson r => inr (Some r)
     | FetchFailed => inr None
     | FetchRaised => inl OtherError
     end).
Proof.
  unfold get_event_props, advance. rewrite Nat.add_1_r.
  by destruct (net w (calls m) event_id).
Qed.

(** One turn of the loop body (lines 225-233): the value left in
    [props_data] and whether the loop breaks. *)
Lemma attempt_eq w event_id (retry : nat) props_data m :
  try_except
    (pd <- get_event_props w event_id ;; ret (pd, truthy pd))
    ((if bool_decide (retry < max_retries - 1)%nat then sleep Retry 2 else ret tt) ;;;
     ret (props_data, false)) m
  = match net w (calls m) event_id with
    | FetchJson r =>
        (advance [EFetch event_id] 1 m, inr (Some r, truthy (Some r)))
    | FetchFailed =>
        (advance [EFetch event_id] 1 m, inr (None, false))
    | FetchRaised =>
        (advance (EFetch event_id ::
                  if bool_decide (retry < max_retries - 1)%nat
                  then [ESleep Retry 2] else []) 1 m,
         inr (props_data, false))
    end.
Proof.
  unfold try_except, bind at 1. rewrite get_event_props_eq.
  destruct (net w (calls m) event_id); try done.
  unfold bind. case_bool_decide; simpl.
  - unfold sleep, emit, ret, advance; simpl. by rewrite <- app_assoc.
  - done.
Qed.

Local Arguments truthy : simpl never.

(** The loop never raises and leaves [self] alone.  It makes at least one
    and at most [length retries] requests, all for this event; what it
    returns is the initial [props_data], [None], or a response of the odds
    API. *)
Lemma retry_loop_spec w event_id retries props_data m :
  ∃ pd tr k,
    retry_loop w event_id retries props_data m = (advance tr k m, inr pd) ∧
    Forall (attempt_effect event_id) tr ∧
    length (filter is_fetch tr) = k ∧ (k ≤ length retries)%nat ∧
    (retries ≠ [] → EFetch event_id ∈ tr) ∧
    (pd = props_data ∨ pd = None ∨
     ∃ j r, net w j event_id = FetchJson r ∧ pd = Some r).
Proof.
  revert props_data m.
  induction retries as [|retry rest IH]; intros props_data m.
  - exists props_data, [], 0. simpl. rewrite advance_nil.
    split_and!; auto. done.
  - simpl. unfold bind at 1. rewrite attempt_eq.
    destruct (net w (calls m) event_id) as [r| |] eqn:Hnet; simpl.
    + destruct (truthy (Some r)) eqn:Ht.
      * exists (Some r), [EFetch event_id], 1. split_and!; try done.
        -- repeat constructor.
        -- lia.
        -- intros _. by left.
        -- right; right. eauto.
      * destruct (IH (Some r) (advance [EFetch event_id] 1 m))
          as (pd & tr & k & Heq & Htr & Hk & Hle & _ & Hpd).
        rewrite Heq, advance_advance.
        exists pd, ([EFetch event_id] ++ tr), (1 + k). split_and!; try done.
        -- constructor; [by left | done].
        -- simpl. by rewrite Hk.
        -- lia.
        -- intros _. by left.
        -- destruct Hpd as [->|[->|Hpd]]; [right; right; eauto | auto | auto].
    + destruct (IH None (advance [EFetch event_id] 1 m))
        as (pd & tr & k & Heq & Htr & Hk & Hle & _ & Hpd).
      rewrite Heq, advance_advance.
      exists pd, ([EFetch event_id] ++ tr), (1 + k). split_and!; try done.
      * constructor; [by left | done].
      * simpl. by rewrite Hk.
      * lia.
      * intros _. by left.
      * destruct Hpd as [->|[->|Hpd]]; auto.
    + match goal with |- context [advance ?t 1 m] => set (tr0 := t) end.
      destruct (IH props_data (advance tr0 1 m))
        as (pd & tr & k & Heq & Htr & Hk & Hle & _ & Hpd).
      rewrite Heq, advance_advance.
      eexists pd, _, (1 + k). split; [done|]. split_and!; try done.
      * apply Forall_app. split; [|done]. unfold tr0.
        constructor; [by left|].
        case_bool_decide; [constructor; [by right | constructor] | constructor].
      * rewrite filter_app, length_app, Hk. unfold tr0.
        by case_bool_decide.
      * lia.
      * intros _. apply elem_of_app. left. unfold tr0. by left.
Qed.

(** C1, the failing input: the listing has one event and every odds request
    fails with a [RequestException], which [get_event_props] catches and
    answers with [None].  The three attempts are made back to back: no
    [time.sleep(2)] separates them, the sleep of line 232 being reached only
    when [get_event_props] itself raises.  The event contributes no prop and
    the run goes on to write the workbook. *)
Theorem request_failures_retried_without_backoff :
  let r := fetch_all_props_to_excel unreachable_world None (3 # 2) None
             (boot reset) in
  effects r.1
  = [EGetEvents; EFetch "e1"; EFetch "e1"; EFetch "e1";
     EWorkbook "mlb_props_20240601_1700.xlsx"] ∧
  filter is_retry_sleep (effects r.1) = [] ∧
  built r.1 = [] ∧ unique_players (self r.1) = ∅ ∧
  r.2 = inr "mlb_props_20240601_1700.xlsx".
Proof. by vm_compute. Qed.

(** The sibling path: when every attempt raises out of [get_event_props],
    the same loop does sleep 2 seconds between the attempts. *)
Lemma raised_attempts_back_off :
  effects (fetch_all_props_to_excel raising_world None (3 # 2) None
             (boot reset)).1
  = [EGetEvents; EFetch "e1"; ESleep Retry 2; EFetch "e1"; ESleep Retry 2;
     EFetch "e1"; EWorkbook "mlb_props_20240601_1700.xlsx"].
Proof. by vm_compute. Qed.

Lemma retry_loop_failed w event_id retry rest props_data m :
  net w (calls m) event_id = FetchFailed →
  retry_loop w event_id (retry :: rest) props_data m
  = retry_loop w event_id rest None (advance [EFetch event_id] 1 m).
Proof.
  intros Hnet. cbn [retry_loop]. unfold bind at 1. by rewrite attempt_eq, Hnet.
Qed.

(** In any world and state: three [RequestException]s in a row are three
    requests with nothing between them, and the loop ends with [None]. *)
Lemma request_failures_no_sleep w event_id props_data m :
  (∀ j, (j < 3)%nat → net w (calls m + j) event_id = FetchFailed) →
  retry_loop w event_id (seq 0 max_retries) props_data m
  = (advance [EFetch event_id; EFetch event_id; EFetch event_id] 3 m, inr None).
Proof.
  intros Hnet. unfold max_retries. cbn [seq].
  rewrite retry_loop_failed
    by (rewrite <- (Nat.add_0_r (calls m)); apply Hnet; lia).
  rewrite retry_loop_failed by (apply Hnet; lia).
  rewrite retry_loop_failed
    by (simpl; rewrite <- Nat.add_assoc; apply Hnet; lia).
  cbn [retry_loop]. unfold ret. by rewrite !advance_advance.
Qed.

(** ** Pacing between events *)

Lemma keeps_modify_self I g : world_only I → keeps I (modify_self g).
Proof. intros HI m Hm. by apply (HI m). Qed.

Lemma keeps_record_built I pd : world_only I → keeps I (record_built pd).
Proof. intros HI m Hm. by apply (HI m). Qed.

Lemma keeps_append_summary_world I s : world_only I → keeps I (append_summary s).
Proof. intros HI m Hm. by apply (HI m). Qed.

Lemma keeps_process_response_world I event_id game commence_time r :
  world_only I → keeps I (process_response event_id game commence_time r).
Proof.
  intros HI.
  apply keeps_for_each. intros bk.
  apply keeps_bind; [apply keeps_getitem|]. intros bookmaker_name.
  apply keeps_for_each. intros mk.
  apply keeps_bind; [apply keeps_getitem|]. intros market_key.
  apply keeps_for_each. intros o.
  apply keeps_bind; [apply keeps_lift|]. intros pd.
  apply keeps_bind; [by apply keeps_record_built|]. intros _.
  apply keeps_bind; [by apply keeps_modify_self|]. intros _.
  unfold route. case_bool_decide; [|apply keeps_ret].
  apply keeps_bind; [apply keeps_getitem|]. intros name.
  repeat case_bool_decide; try apply keeps_ret.
  - intros m Hm. unfold append_over, bind, lift.
    destruct (place market_key pd (over_props (self m))); [done|].
    by apply (HI m).
  - intros m Hm. unfold append_under, bind, lift.
    destruct (place market_key pd (under_props (self m))); [done|].
    by apply (HI m).
Qed.

Lemma process_response_silent event_id game commence_time r m :
  effects (process_response event_id game commence_time r m).1 = effects m ∧
  calls (process_response event_id game commence_time r m).1 = calls m.
Proof.
  apply (keeps_process_response_world
           (λ m', effects m' = effects m ∧ calls m' = calls m)
           event_id game commence_time r); [|done].
  intros m1 m2 He Hc. by rewrite He, Hc.
Qed.

Local Arguments retry_loop : simpl never.
Local Arguments process_response : simpl never.

Lemma process_event_eq w delay n i ev m event_id home_team away_team commence_time :
  ev_id ev = Some event_id → ev_home_team ev = Some home_team →
  ev_away_team ev = Some away_team → ev_commence_time ev = Some commence_time →
  let matchup := String.append away_team (String.append " @ " home_team) in
  process_event w delay n i ev m
  = bind (retry_loop w event_id (seq 0 max_retries) None)
      (λ props_data,
         bind (match props_data with
               | Some r =>
                   if truthy props_data
                   then process_response event_id matchup commence_time r
                   else ret tt
               | None => ret tt
               end)
           (λ _, if bool_decide (i < n)%nat then sleep RateLimit delay
                 else ret tt))
      (append_summary
         {| s_Event_ID := event_id; s_Away_Team := away_team;
            s_Home_Team := home_team; s_Game_Time := commence_time;
            s_Matchup := matchup |} m).1.
Proof.
  intros Hid Hhome Haway Htime. unfold process_event.
  by rewrite Hid, Hhome, Haway, Htime.
Qed.

Lemma process_event_missing_key w delay n i ev m :
  ¬ event_wf ev →
  ∃ key, process_event w delay n i ev m = (m, inl (KeyError key)).
Proof.
  intros Hwf. unfold process_event.
  destruct (ev_id ev) eqn:Hid; [|by eexists].
  destruct (ev_home_team ev) eqn:Hhome; [|by eexists].
  destruct (ev_away_team ev) eqn:Haway; [|by eexists].
  destruct (ev_commence_time ev) eqn:Htime; [|by eexists].
  destruct Hwf. unfold event_wf. rewrite Hid, Hhome, Haway, Htime. eauto.
Qed.

(** The effects of one turn of the loop over events: a segment of attempts
    and, when the turn returns and the event is not the last, one
    rate-limit sleep after it. *)
Lemma process_event_trace w delay n i ev m :
  ∃ seg,
    Forall (λ e, ¬ is_rate_sleep e) seg ∧
    match (process_event w delay n i ev m).2 with
    | inr _ =>
        event_segment ev seg ∧
        effects (process_event w delay n i ev m).1
        = effects m ++ seg
          ++ (if bool_decide (i < n)%nat then [ESleep RateLimit delay] else [])
    | inl _ => effects (process_event w delay n i ev m).1 = effects m ++ seg
    end.
Proof.
  destruct (decide (event_wf ev)) as [Hwf|Hwf].
  2: { destruct (process_event_missing_key w delay n i ev m Hwf) as [key ->].
       exists []. split; [constructor|]. simpl. by rewrite app_nil_r. }
  destruct Hwf as ([event_id Hid] & [home_team Hhome] & [away_team Haway]
                   & [commence_time Htime]).
  rewrite (process_event_eq w delay n i ev m _ _ _ _ Hid Hhome Haway Htime).
  set (m0 := (append_summary _ m).1).
  destruct (retry_loop_spec w event_id (seq 0 max_retries) None m0)
    as (pd & tr & k & Heq & Htr & _ & _ & Hin & _).
  exists tr. split.
  { eapply Forall_impl; [exact Htr|]. by intros e [-> | ->] Hr. }
  assert (Hseg : event_segment ev tr).
  { exists event_id. split_and!; [done| |done]. by apply Hin. }
  unfold bind at 1 3 5. rewrite Heq.
  assert (Heff : effects (advance tr k m0) = effects m ++ tr) by done.
  destruct pd as [r|]; [destruct (truthy (Some r))|].
  - unfold bind.
    destruct (process_response_silent event_id
                (String.append away_team (String.append " @ " home_team))
                commence_time r (advance tr k m0)) as [He _].
    rewrite Heff in He.
    destruct (process_response _ _ _ r (advance tr k m0)) as [m2 [e|[]]];
      simpl in *; [done|].
    case_bool_decide; simpl; (split; [done|]).
    + by rewrite He, app_assoc.
    + by rewrite He, app_nil_r.
  - unfold bind, ret. case_bool_decide; simpl; (split; [done|]).
    + by rewrite app_assoc.
    + by rewrite app_nil_r.
  - unfold bind, ret. case_bool_decide; simpl; (split; [done|]).
    + by rewrite app_assoc.
    + by rewrite app_nil_r.
Qed.

Lemma join_with_cons sep seg segs :
  segs ≠ [] → join_with sep (seg :: segs) = seg ++ sep ++ join_with sep segs.
Proof. by destruct segs. Qed.

Lemma events_loop_trace w delay n events : ∀ i m,
  i + length events = S n →
  ∃ segs,
    effects (events_loop w delay n i events m).1
    = effects m ++ join_with [ESleep RateLimit delay] segs ∧
    Forall (Forall (λ e, ¬ is_rate_sleep e)) segs ∧
    (length segs ≤ length events)%nat ∧
    (events ≠ [] → segs ≠ []) ∧
    ((events_loop w delay n i events m).2 = inr tt →
     Forall2 event_segment events segs).
Proof.
  induction events as [|ev rest IH]; intros i m Hlen.
  - exists []. simpl. rewrite app_nil_r. split_and!; done.
  - cbn [events_loop]. unfold bind.
    destruct (process_event_trace w delay n i ev m) as (seg & Hseg & Htrace).
    destruct (process_event w delay n i ev m) as [m1 [e|[]]]; simpl in Htrace.
    + exists [seg]. simpl. split_and!; try done.
      * by repeat constructor.
      * lia.
    + destruct Htrace as [Hev Heff].
      destruct rest as [|ev2 rest].
      * exists [seg]. simpl in *.
        rewrite bool_decide_false in Heff by lia. rewrite app_nil_r in Heff.
        split_and!; try done.
        -- by repeat constructor.
        -- intros _. by repeat constructor.
      * destruct (IH (S i) m1) as (segs & Heffs & Hsegs & Hle & Hne & Hall).
        { simpl in *. lia. }
        specialize (Hne ltac:(done)).
        exists (seg :: segs). rewrite join_with_cons by done.
        rewrite bool_decide_true in Heff by (simpl in Hlen; lia).
        split_and!; try done.
        -- rewrite Heffs, Heff. by rewrite <- !app_assoc.
        -- by constructor.
        -- simpl in *. lia.
        -- intros Hret. constructor; [done | by apply Hall].
Qed.

(** C7: the effects of the loop over the events of a run are the events'
    own segments (requests for that event and retry sleeps, never a
    rate-limit sleep) with exactly one [time.sleep(delay_between_requests)]
    between two successive segments, and none after the last one.  When the
    loop returns there is one segment for each event, each with at least one
    request for its event; a loop cut short by an exception has sleeps only
    between the events it started. *)
Theorem rate_limit_delay_between_events
    (w : world) (delay_between_requests : Q) (events : list event)
    (m : machine) :
  let r := events_loop w delay_between_requests (length events) 1 events m in
  ∃ segs : list (list effect),
    effects r.1
    = effects m ++ join_with [ESleep RateLimit delay_between_requests] segs ∧
    Forall (Forall (λ e, ¬ is_rate_sleep e)) segs ∧
    (length segs ≤ length events)%nat ∧
    (events ≠ [] → segs ≠ []) ∧
    (r.2 = inr tt → Forall2 event_segment events segs).
Proof. apply events_loop_trace. simpl. lia. Qed.

(** ** Well-formed input is ingested without raising *)

Lemma for_each_returns {A} (P : A → Prop) (I : machine → Prop)
    (body : A → exec unit) xs :
  (∀ x m, P x → I m → (body x m).2 = inr tt ∧ I (body x m).1) →
  Forall P xs →
  ∀ m, I m → (for_each body xs m).2 = inr tt ∧ I (for_each body xs m).1.
Proof.
  intros Hbody Hxs. induction Hxs as [|x xs Hx _ IH]; intros m Hm; [done|].
  cbn [for_each]. unfold bind.
  destruct (Hbody x m Hx Hm) as [Hret HI].
  destruct (body x m) as [m1 [e|[]]]; simpl in *; [done|]. by apply IH.
Qed.

Lemma process_response_returns event_id game commence_time r m :
  response_wf r → bucket_keys (self m) →
  (process_response event_id game commence_time r m).2 = inr tt ∧
  bucket_keys (self (process_response event_id game commence_time r m).1).
Proof.
  intros Hr Hm. unfold process_response.
  apply (for_each_returns bookmaker_wf (λ m, bucket_keys (self m))); [|done..].
  clear. intros bk m [[bookmaker_name Hname] Hmks] Hm.
  unfold process_bookmaker. rewrite Hname. cbn [getitem]. unfold bind at 1 2, ret.
  apply (for_each_returns market_wf (λ m, bucket_keys (self m))); [|done..].
  clear -Hname. intros mk m [[market_key Hkey] Hos] Hm.
  unfold process_market. rewrite Hkey. cbn [getitem]. unfold bind at 1 2, ret.
  apply (for_each_returns outcome_wf (λ m, bucket_keys (self m))); [|done..].
  clear. intros o m Ho Hm.
  destruct (normalize_wf event_id game commence_time bookmaker_name bk
              market_key mk o Ho) as [pd Hpd].
  rewrite (process_outcome_normalized _ _ _ _ _ _ _ _ _ _ Hpd Hm). simpl.
  split; [done|]. by apply ingest_prop_bucket_keys.
Qed.

Lemma process_event_returns w delay n i ev m :
  responses_wf w → event_wf ev → bucket_keys (self m) →
  (process_event w delay n i ev m).2 = inr tt ∧
  bucket_keys (self (process_event w delay n i ev m).1).
Proof.
  intros Hw ([event_id Hid] & [home_team Hhome] & [away_team Haway]
             & [commence_time Htime]) Hm.
  rewrite (process_event_eq w delay n i ev m _ _ _ _ Hid Hhome Haway Htime).
  set (m0 := (append_summary _ m).1).
  destruct (retry_loop_spec w event_id (seq 0 max_retries) None m0)
    as (pd & tr & k & Heq & _ & _ & _ & _ & Hpd).
  unfold bind at 1 3. rewrite Heq.
  assert (Hm0 : bucket_keys (self (advance tr k m0))) by done.
  assert (Htail : ∀ m2, bucket_keys (self m2) →
            ((if bool_decide (i < n)%nat then sleep RateLimit delay else ret tt) m2).2
            = inr tt ∧
            bucket_keys (self ((if bool_decide (i < n)%nat
                                then sleep RateLimit delay else ret tt) m2).1))
    by (intros m2 Hm2; by case_bool_decide).
  destruct pd as [r|]; [destruct (truthy (Some r))|].
  - assert (Hr : response_wf r).
    { destruct Hpd as [?|[?|(j & r' & Hnet & [= ->])]]; [done..|]. by eapply Hw. }
    unfold bind.
    destruct (process_response_returns event_id
                (String.append away_team (String.append " @ " home_team))
                commence_time r (advance tr k m0) Hr Hm0) as [Hret Hkeys].
    destruct (process_response _ _ _ r (advance tr k m0)) as [m2 [e|[]]];
      simpl in *; [done|]. by apply Htail.
  - unfold bind, ret. by apply Htail.
  - unfold bind, ret. by apply Htail.
Qed.

Lemma events_loop_returns w delay n events : ∀ i m,
  responses_wf w → Forall event_wf events → bucket_keys (self m) →
  (events_loop w delay n i events m).2 = inr tt.
Proof.
  induction events as [|ev rest IH]; intros i m Hw Hevs Hm; [done|].
  apply Forall_cons in Hevs as [Hev Hrest].
  cbn [events_loop]. unfold bind.
  destruct (process_event_returns w delay n i ev m Hw Hev Hm) as [Hret Hkeys].
  destruct (process_event w delay n i ev m) as [m1 [e|[]]]; simpl in *; [done|].
  by apply IH.
Qed.

(** ** What the ingestion loop can raise *)

Lemma only_KeyError_ret {A} (a : A) : raises_only_KeyError (ret a).
Proof. by intros m e. Qed.

Lemma only_KeyError_getitem {A} (field : option A) key :
  raises_only_KeyError (getitem field key).
Proof. destruct field; intros m e; [done|]. intros [= <-]. eauto. Qed.

Lemma only_KeyError_bind {A B} (c : exec A) (k : A → exec B) :
  raises_only_KeyError c → (∀ a, raises_only_KeyError (k a)) →
  raises_only_KeyError (bind c k).
Proof.
  intros Hc Hk m e. unfold bind. specialize (Hc m).
  destruct (c m) as [m1 [e1|a]]; simpl in *.
  - intros [= <-]. by apply Hc.
  - apply Hk.
Qed.

Lemma only_KeyError_for_each {A} (body : A → exec unit) xs :
  (∀ x, raises_only_KeyError (body x)) →
  raises_only_KeyError (for_each body xs).
Proof.
  intros Hb. induction xs as [|x xs IH]; simpl.
  - apply only_KeyError_ret.
  - apply only_KeyError_bind; [apply Hb | intros _; apply IH].
Qed.

Lemma only_KeyError_place_over market_key pd :
  raises_only_KeyError (append_over market_key pd).
Proof.
  intros m e. unfold append_over, bind, lift, place.
  destruct (over_props (self m) !! market_key); [done|]. intros [= <-]. eauto.
Qed.

Lemma only_KeyError_place_under market_key pd :
  raises_only_KeyError (append_under market_key pd).
Proof.
  intros m e. unfold append_under, bind, lift, place.
  destruct (under_props (self m) !! market_key); [done|]. intros [= <-]. eauto.
Qed.

Lemma only_KeyError_process_response event_id game commence_time r :
  raises_only_KeyError (process_response event_id game commence_time r).
Proof.
  apply only_KeyError_for_each. intros bk.
  apply only_KeyError_bind; [apply only_KeyError_getitem|]. intros bookmaker_name.
  apply only_KeyError_for_each. intros mk.
  apply only_KeyError_bind; [apply only_KeyError_getitem|]. intros market_key.
  apply only_KeyError_for_each. intros o.
  apply only_KeyError_bind.
  { intros m e. unfold lift, normalize.
    destruct (o_name o), (o_price o); simpl; try done; intros [= <-]; eauto. }
  intros pd. apply only_KeyError_bind; [by intros m e|]. intros _.
  apply only_KeyError_bind; [by intros m e|]. intros _.
  unfold route. case_bool_decide; [|apply only_KeyError_ret].
  apply only_KeyError_bind; [apply only_KeyError_getitem|]. intros name.
  repeat case_bool_decide;
    auto using only_KeyError_ret, only_KeyError_place_over,
      only_KeyError_place_under.
Qed.

Lemma only_KeyError_process_event w delay n i ev :
  raises_only_KeyError (process_event w delay n i ev).
Proof.
  unfold process_event.
  repeat (apply only_KeyError_bind; [apply only_KeyError_getitem|]; intros ?).
  apply only_KeyError_bind; [by intros m e|]. intros _.
  apply only_KeyError_bind.
  { intros m e.
    match goal with
    | |- context [retry_loop w ?id] =>
        destruct (retry_loop_spec w id (seq 0 max_retries) None m)
          as (pd & tr & k & -> & _)
    end. done. }
  intros props_data. apply only_KeyError_bind.
  - destruct props_data as [r|]; [|apply only_KeyError_ret].
    destruct (truthy (Some r));
      [apply only_KeyError_process_response | apply only_KeyError_ret].
  - intros _. case_bool_decide; by intros m e.
Qed.

Lemma only_KeyError_events_loop w delay n events : ∀ i,
  raises_only_KeyError (events_loop w delay n i events).
Proof.
  induction events as [|ev rest IH]; intros i; simpl.
  - apply only_KeyError_ret.
  - apply only_KeyError_bind; [apply only_KeyError_process_event|].
    intros _. apply IH.
Qed.

(** ** Runs of [main] *)

Lemma main_without_key w m :
  ¬ key_present w → main w m = (m, inl (SystemExit 1)).
Proof.
  intros Hkey. unfold main. destruct (env_api_key w) as [key|] eqn:Hk; [|done].
  destruct (nonempty key) eqn:Hne; [|done].
  destruct Hkey. by exists key.
Qed.

Lemma main_without_events w f :
  key_present w → default [] (listing w) = [] →
  main w (boot f) = (at_loop_start, inl (SystemExit 1)).
Proof.
  intros (key & Hk & Hne) Hl. unfold main. rewrite Hk, Hne.
  unfold fetch_all_props_to_excel, get_mlb_events. rewrite Hl. done.
Qed.

(** The file name that [main] passes to [fetch_all_props_to_excel]. *)
Lemma main_with_events w f ev evs :
  key_present w → listing w = Some (ev :: evs) →
  main w (boot f)
  = match ingestion w (ev :: evs) with
    | (m1, inl e) => (m1, inl e)
    | (m1, inr _) =>
        let filename :=
          String.append "mlb_props_" (String.append (now w) ".xlsx") in
        let m2 := (emit (EWorkbook filename) m1).1 in
        if workbook_ok w then
          match run_full_analysis w
                  (String.append "MLB_Props_Cheat_Sheets_"
                     (String.append (now w) ".xlsx")) with
          | Some result_file =>
              if nonempty result_file then (m2, inr tt)
              else (m2, inl (SystemExit 1))
          | None => (m2, inl (SystemExit 1))
          end
        else (m2, inl (SystemExit 1))
    end.
Proof.
  intros (key & Hk & Hne) Hl. unfold main. rewrite Hk, Hne.
  unfold fetch_all_props_to_excel, get_mlb_events. rewrite Hl.
  unfold ingestion, bind, try_except, create_excel_workbook, bind.
  cbn [modify_self emit ret clear_summary boot default id self events_summary
         effects calls built fst snd app].
  change (Machine reset [] [EGetEvents] 0 []) with at_loop_start.
  destruct (events_loop w (3 # 2) (length (ev :: evs)) 1 (ev :: evs) at_loop_start)
    as [m1 [e|[]]]; [done|].
  destruct (workbook_ok w); [|done].
  cbn [ret raise nonempty String.append].
  by destruct (run_full_analysis _ _) as [[|]|].
Qed.


Lemma bucket_keys_at_loop_start : bucket_keys (self at_loop_start).
Proof. apply reset_bucket_keys. Qed.

(** C8 (amended): the run ends with exit status 1 without any request when
    the API key is absent or empty, and with exit status 1 after the listing
    request alone when that request fails or lists no event.  With a key and
    a non-empty listing the exit status is 0 or 1, and it is 0 exactly when
    the loop over the events raises nothing, the workbook is written and the
    analysis gives a result: an exception raised during ingestion, a
    workbook failure and an analysis failure are all surfaced as a failed
    run.  Failed market fetches are not: when the events and the responses
    received are well formed the loop raises nothing, whatever requests
    fail. *)
Theorem run_failure_policy (w : world) (f : fetcher) :
  let r := main w (boot f) in
  (¬ key_present w → exit_status r.2 = 1%Z ∧ effects r.1 = []) ∧
  (key_present w → listing w = None ∨ listing w = Some [] →
   exit_status r.2 = 1%Z ∧ effects r.1 = [EGetEvents]) ∧
  (∀ ev evs,
     key_present w → listing w = Some (ev :: evs) →
     (exit_status r.2 = 0%Z ∨ exit_status r.2 = 1%Z) ∧
     (exit_status r.2 = 0%Z ↔
      (ingestion w (ev :: evs)).2 = inr tt ∧ workbook_ok w = true ∧
      analysis_ok w) ∧
     (Forall event_wf (ev :: evs) → responses_wf w →
      (ingestion w (ev :: evs)).2 = inr tt)).
Proof.
  intros r. split_and!.
  - intros Hkey. unfold r. by rewrite main_without_key.
  - intros Hkey Hl. unfold r. rewrite main_without_events; [done..|].
    by destruct Hl as [-> | ->].
  - intros ev evs Hkey Hl. unfold r.
    rewrite (main_with_events w f ev evs Hkey Hl). unfold analysis_ok.
    pose proof (only_KeyError_events_loop w (3 # 2) (length (ev :: evs))
                  (ev :: evs) 1 at_loop_start) as Honly.
    fold (ingestion w (ev :: evs)) in Honly.
    split_and!.
    + destruct (ingestion w (ev :: evs)) as [m1 [e|[]]]; simpl in *.
      * destruct (Honly e eq_refl) as [key ->]. by right.
      * destruct (workbook_ok w); [|by right].
        destruct (run_full_analysis _ _) as [[|]|]; simpl; auto.
    + destruct (ingestion w (ev :: evs)) as [m1 [e|[]]]; simpl in *.
      * destruct (Honly e eq_refl) as [key ->]. simpl. split; [done|].
        by intros [? _].
      * destruct (workbook_ok w); [|split; [done | by intros (_ & ? & _)]].
        destruct (run_full_analysis _ _) as [[|c s]|]; simpl.
        -- split; [done|]. by intros (_ & _ & rf & [= <-] & ?).
        -- split; [|done]. intros _. split_and!; [done..|]. by eexists.
        -- split; [done|]. by intros (_ & _ & rf & ? & _).
    + intros Hevs Hw. apply events_loop_returns; [done..|].
      apply bucket_keys_at_loop_start.
Qed.

Lemma run_failure_policy_witness :
  key_present unreachable_world ∧
  listing unreachable_world = Some [sample_event "e1"] ∧
  Forall event_wf [sample_event "e1"] ∧
  responses_wf unreachable_world ∧
  workbook_ok unreachable_world = true ∧
  analysis_ok unreachable_world ∧
  exit_status (main unreachable_world (boot reset)).2 = 0%Z.
Proof.
  assert (Hkey : key_present unreachable_world) by (by exists "key").
  assert (Hevs : Forall event_wf [sample_event "e1"]).
  { repeat constructor; simpl; eauto. }
  assert (Hw : responses_wf unreachable_world) by (by intros k id r).
  assert (Hana : analysis_ok unreachable_world) by (by eexists).
  refine (conj Hkey (conj eq_refl (conj Hevs (conj Hw (conj eq_refl (conj Hana _)))))).
  destruct (run_failure_policy unreachable_world reset) as (_ & _ & Hrun).
  destruct (Hrun (sample_event "e1") [] Hkey eq_refl) as (_ & Hiff & Hret).
  apply Hiff. split_and!; [|done..]. by apply Hret.
Defined.

(** C8 as stated fails: the key is present and the listing call succeeds,
    yet the run ends with a traceback and exit status 1, because the one
    response holds an outcome without a price.  The error is not degraded to
    partial data: no workbook is written. *)
Lemma malformed_outcome_fails_run :
  let r := main malformed_world (boot reset) in
  env_api_key malformed_world = Some "key" ∧
  listing malformed_world = Some [sample_event "e1"] ∧
  r.2 = inl (KeyError "price") ∧
  exit_status r.2 = 1%Z ∧
  effects r.1 = [EGetEvents; EFetch "e1"].
Proof. by vm_compute. Qed.

(** ** The stats cache *)

Section CacheProofs.

Context {stats : Type} (upstream : nat → StatsCache.key → option stats).

Import StatsCache.

Implicit Types (s : @cache_state stats) (k : key) (t : nat).

Lemma init_inv requests : cache_inv upstream requests (init requests).
Proof.
  unfold cache_inv, init; simpl. split_and!.
  - rewrite <- list_fmap_compose. by rewrite list_fmap_id.
  - intros t [k p] Hl. apply list_lookup_fmap_Some in Hl as (k' & Heq & _).
    by injection Heq as -> ->.
  - constructor.
  - intros k Hk. by apply elem_of_nil in Hk.
  - intros k. split.
    + intros Hk. by apply elem_of_nil in Hk.
    + intros [[v Hv] | [t Ht]].
      * by rewrite lookup_empty in Hv.
      * by apply list_lookup_fmap_Some in Ht as (k' & Heq & _).
  - intros k v Hv. by rewrite lookup_empty in Hv.
Qed.

(** A worker between acquire and release is the holder of the lock, so two
    such workers are the same worker. *)
Lemma worker_ok_lock s t k p :
  worker_ok s t (k, p) → holds_lock p → cache_lock s = Some t.
Proof. unfold worker_ok. destruct p; simpl; try done; by intros []. Qed.

Lemma lookup_set_pc s t k p p' t' :
  workers s !! t = Some (k, p) →
  set_pc t k p' s !! t' = if decide (t' = t) then Some (k, p') else workers s !! t'.
Proof.
  intros Ht. unfold set_pc. case_decide as Heq.
  - subst. apply list_lookup_insert_eq. by eapply lookup_lt_Some.
  - by apply list_lookup_insert_ne.
Qed.

Lemma fst_set_pc s t k p p' :
  workers s !! t = Some (k, p) → fst <$> set_pc t k p' s = fst <$> workers s.
Proof.
  intros Ht. unfold set_pc. rewrite list_fmap_insert. simpl.
  apply list_insert_id. by rewrite list_lookup_fmap, Ht.
Qed.

Lemma fetching_set_pc s t k p p' k0 :
  workers s !! t = Some (k, p) →
  (∃ t', set_pc t k p' s !! t' = Some (k0, Fetching)) ↔
  (p' = Fetching ∧ k0 = k) ∨
  (∃ t', t' ≠ t ∧ workers s !! t' = Some (k0, Fetching)).
Proof.
  intros Ht. split.
  - intros [t' Ht']. rewrite (lookup_set_pc s t k p) in Ht' by done.
    case_decide; [injection Ht' as -> ->; by left | right; eauto].
  - intros [[-> ->] | (t' & Hne & Ht')].
    + exists t. rewrite (lookup_set_pc s t k p) by done. by rewrite decide_True.
    + exists t'. rewrite (lookup_set_pc s t k p) by done. by rewrite decide_False.
Qed.

(** A worker that does not hold the lock only relies on cache entries
    staying as they are. *)
Lemma worker_ok_other s s' t' k' p' :
  ¬ holds_lock p' → worker_ok s t' (k', p') →
  (∀ v, player_stats_cache s !! k' = Some v →
        player_stats_cache s' !! k' = Some v) →
  worker_ok s' t' (k', p').
Proof.
  intros Hp Hw Hc. unfold worker_ok in *.
  destruct p'; simpl in *; try done; try (by destruct Hp); auto.
Qed.

(** Every step keeps the invariant. *)
Lemma step_inv requests s t s' :
  cache_inv upstream requests s → step upstream t s = Some s' →
  cache_inv upstream requests s'.
Proof.
  intros (Hreq & Hok & Hnd & Hin & Hiff & Hval). unfold step.
  destruct (workers s !! t) as [[k p]|] eqn:Ht; [|done].
  pose proof (Hok t _ Ht) as Hme.
  assert (Hk : k ∈ requests).
  { rewrite <- Hreq. apply list_elem_of_fmap. exists (k, p). split; [done|].
    by eapply list_elem_of_lookup_2. }
  assert (Hfree : (cache_lock s = None ∨ cache_lock s = Some t) →
            ∀ t' k' p', t' ≠ t → workers s !! t' = Some (k', p') →
                        ¬ holds_lock p').
  { intros Hl t' k' p' Hne Ht' Hp'.
    pose proof (worker_ok_lock _ _ _ _ (Hok _ _ Ht') Hp').
    destruct Hl; congruence. }
  assert (Hnofetch : (cache_lock s = None ∨ cache_lock s = Some t) →
            ∀ k0, (∃ t', t' ≠ t ∧ workers s !! t' = Some (k0, Fetching)) → False).
  { intros Hl k0 (t' & Hne & Ht'). by apply (Hfree Hl t' k0 Fetching). }
  destruct p as [| | |v|v]; unfold worker_ok in Hme; simpl in Hme.
  - (* acquire *)
    destruct (cache_lock s) as [holder|] eqn:Hlock; [done|].
    intros [= <-]. unfold cache_inv; simpl. split_and!; try done.
    + by rewrite (fst_set_pc s t k Waiting).
    + intros t' [k' p'] Ht'. rewrite (lookup_set_pc s t k Waiting) in Ht' by done.
      case_decide; [by injection Ht' as <- <-; subst|].
      eapply worker_ok_other; [by eapply Hfree; eauto | by apply Hok | done].
    + intros k0. rewrite Hiff, (fetching_set_pc s t k Waiting) by done.
      split; [intros [?|[t' Ht']]|intros [?|[[? _]|(t' & _ & ?)]]]; eauto.
      * right. right. exists t'. split; [|done]. intros ->. congruence.
      * done.
  - (* look the key up *)
    assert (Hl : cache_lock s = None ∨ cache_lock s = Some t) by auto.
    destruct (player_stats_cache s !! k) as [v|] eqn:Hc.
    + (* hit *)
      intros [= <-]. unfold cache_inv; simpl. split_and!; try done.
      * by rewrite (fst_set_pc s t k Checking).
      * intros t' [k' p'] Ht'.
        rewrite (lookup_set_pc s t k Checking) in Ht' by done.
        case_decide; [by injection Ht' as <- <-; subst|].
        eapply worker_ok_other; [by eapply Hfree; eauto | by apply Hok | done].
      * intros k0. rewrite Hiff, (fetching_set_pc s t k Checking) by done.
        split; [intros [?|[t' Ht']]|intros [?|[[? _]|(t' & _ & ?)]]]; eauto.
        -- right. right. exists t'. split; [|done]. intros ->. congruence.
        -- done.
    + (* miss: the upstream fetch starts *)
      assert (Hnew : k ∉ upstream_calls s).
      { intros [[v Hv]|[t' Ht']]%Hiff; [congruence|].
        apply (Hnofetch Hl k). exists t'. split; [|done]. intros ->. congruence. }
      intros [= <-]. unfold cache_inv; simpl. split_and!.
      * by rewrite (fst_set_pc s t k Checking).
      * intros t' [k' p'] Ht'.
        rewrite (lookup_set_pc s t k Checking) in Ht' by done.
        case_decide.
        -- injection Ht' as <- <-; subst. unfold worker_ok; simpl.
           by rewrite last_snoc.
        -- eapply worker_ok_other; [by eapply Hfree; eauto | by apply Hok | done].
      * apply NoDup_app. split_and!; [done| |apply NoDup_singleton].
        intros k0 Hk0 ->%list_elem_of_singleton. done.
      * intros k0 [Hk0 | ->%list_elem_of_singleton]%elem_of_app; auto.
      * intros k0. rewrite elem_of_app, list_elem_of_singleton, Hiff,
          (fetching_set_pc s t k Checking) by done.
        split.
        -- intros [[?|[t' Ht']] | ->]; auto.
           right. right. exists t'. split; [|done]. intros ->. congruence.
        -- intros [?|[[_ ->]|(t' & _ & ?)]]; eauto.
      * intros k0 v Hv. destruct (Hval k0 v Hv) as (i & Hi & ->).
        exists i. split; [|done]. by apply lookup_app_l_Some.
  - (* the upstream fetch completes *)
    destruct Hme as (Hlock & Hc & Hlast).
    assert (Hl : cache_lock s = None ∨ cache_lock s = Some t) by auto.
    assert (Hkin : k ∈ upstream_calls s).
    { apply last_Some in Hlast as [l' ->]. apply elem_of_app. right. by left. }
    intros [= <-]. unfold cache_inv; simpl. split_and!; try done.
    + by rewrite (fst_set_pc s t k Fetching).
    + intros t' [k' p'] Ht'.
      rewrite (lookup_set_pc s t k Fetching) in Ht' by done.
      case_decide.
      * injection Ht' as <- <-; subst. unfold worker_ok; simpl.
        by rewrite lookup_insert_eq.
      * eapply worker_ok_other; [by eapply Hfree; eauto | by apply Hok |].
        simpl. intros v' Hv'.
        rewrite lookup_insert_ne; [done|]. intros ->. congruence.
    + intros k0. rewrite Hiff, (fetching_set_pc s t k Fetching) by done.
      destruct (decide (k0 = k)) as [->|Hne].
      * rewrite lookup_insert_eq. split; [eauto|]. intros _. right. by exists t.
      * rewrite lookup_insert_ne by done. split.
        -- intros [?|[t' Ht']]; [by left|]. right. right. exists t'.
           split; [|done]. intros ->. congruence.
        -- intros [?|[[? _]|(t' & _ & ?)]]; eauto. done.
    + intros k0 v0. destruct (decide (k0 = k)) as [->|Hne].
      * rewrite lookup_insert_eq. intros [= <-].
        exists (length (upstream_calls s) - 1). split; [|done].
        by rewrite Nat.sub_1_r, <- last_lookup.
      * rewrite lookup_insert_ne by done. apply Hval.
  - (* release *)
    destruct Hme as (Hlock & Hc).
    assert (Hl : cache_lock s = None ∨ cache_lock s = Some t) by auto.
    intros [= <-]. unfold cache_inv; simpl. split_and!; try done.
    + by rewrite (fst_set_pc s t k (Releasing v)).
    + intros t' [k' p'] Ht'.
      rewrite (lookup_set_pc s t k (Releasing v)) in Ht' by done.
      case_decide; [by injection Ht' as <- <-; subst|].
      eapply worker_ok_other; [by eapply Hfree; eauto | by apply Hok | done].
    + intros k0. rewrite Hiff, (fetching_set_pc s t k (Releasing v)) by done.
      split; [intros [?|[t' Ht']]|intros [?|[[? _]|(t' & _ & ?)]]]; eauto.
      * right. right. exists t'. split; [|done]. intros ->. congruence.
      * done.
  - done.
Qed.

Lemma run_inv requests schedule : ∀ s,
  cache_inv upstream requests s →
  cache_inv upstream requests (run upstream schedule s).
Proof.
  induction schedule as [|t rest IH]; intros s Hs; [done|].
  simpl. apply IH. destruct (step upstream t s) as [s'|] eqn:Hstep; [|done].
  by eapply step_inv.
Qed.

End CacheProofs.

Section CacheTheorems.

Context {stats : Type} (upstream : nat → StatsCache.key → option stats).

Import StatsCache.

Lemma filter_at_most_one {A} (P : A → Prop) `{!∀ x, Decision (P x)} (l : list A) :
  (∀ i j x y, l !! i = Some x → l !! j = Some y → P x → P y → i = j) →
  (length (filter P l) ≤ 1)%nat.
Proof.
  induction l as [|a l IH]; intros Huniq; [simpl; lia|].
  rewrite filter_cons. destruct (decide (P a)) as [Ha|Ha]; simpl.
  - assert (Hnone : filter P l = []).
    { destruct (filter P l) as [|y l'] eqn:Hf; [done|].
      assert (Hy : y ∈ filter P l) by (rewrite Hf; by left).
      apply list_elem_of_filter in Hy as [Hy Hin].
      apply list_elem_of_lookup in Hin as [j Hj].
      by specialize (Huniq 0 (S j) a y eq_refl Hj Ha Hy). }
    rewrite Hnone. simpl. lia.
  - apply IH. intros i j x y Hi Hj Hx Hy.
    by specialize (Huniq (S i) (S j) x y Hi Hj Hx Hy) as [= ->].
Qed.

Lemma inv_in_flight requests (s : @cache_state stats) :
  cache_inv upstream requests s → (in_flight s ≤ 1)%nat.
Proof.
  intros (_ & Hok & _). unfold in_flight. apply filter_at_most_one.
  intros i j [k1 p1] [k2 p2] Hi Hj H1 H2.
  unfold is_fetching in *; simpl in *.
  destruct p1; try done. destruct p2; try done.
  pose proof (Hok _ _ Hi) as [Hl1 _]. pose proof (Hok _ _ Hj) as [Hl2 _].
  congruence.
Qed.

Lemma NoDup_all_same {A} (k : A) (l : list A) :
  NoDup l → (∀ x, x ∈ l → x = k) → k ∈ l → l = [k].
Proof.
  intros Hnd Hall Hk. destruct l as [|a [|b l]].
  - by apply elem_of_nil in Hk.
  - f_equal. apply Hall. by left.
  - assert (a = k) as -> by (apply Hall; by left).
    assert (b = k) as -> by (apply Hall; right; by left).
    apply NoDup_cons in Hnd as [Hnot _]. destruct Hnot. by left.
Qed.

(** C9: [n] workers ask for the same key, the cache being empty at the
    start, and take their steps in any order.  In every state that the
    machine reaches at most one upstream fetch is in flight.  Once all
    workers have returned, the upstream fetch function has been invoked
    exactly once, for that key, and every worker has received the value that
    this one invocation resolved to. *)
Theorem cache_single_fetch (n : nat) (k : key) (schedule : list nat) :
  let s := run upstream schedule (init (replicate n k)) in
  (in_flight s ≤ 1)%nat ∧
  (n ≠ 0 → Forall has_returned (workers s) →
   upstream_calls s = [k] ∧
   workers s = replicate n (k, Returned (resolve (upstream 0 k)))).
Proof.
  intros s.
  assert (Hinv : cache_inv upstream (replicate n k) s)
    by apply run_inv, init_inv.
  split; [by eapply inv_in_flight|].
  intros Hn Hret. destruct Hinv as (Hreq & Hok & Hnd & Hin & Hiff & Hval).
  assert (Hlen : length (workers s) = n).
  { by rewrite <- (length_fmap fst), Hreq, length_replicate. }
  assert (Hall : ∀ t kp, workers s !! t = Some kp →
            ∃ v, kp = (k, Returned v) ∧ player_stats_cache s !! k = Some v).
  { intros t [k' p] Ht.
    assert (k' = k) as ->.
    { apply (elem_of_replicate_inv _ n). rewrite <- Hreq.
      apply list_elem_of_fmap. exists (k', p). split; [done|].
      by eapply list_elem_of_lookup_2. }
    pose proof (Hok _ _ Ht) as Hw.
    eapply Forall_lookup_1 in Hret; [|exact Ht].
    unfold has_returned, worker_ok in *; simpl in *.
    destruct p; try done. eauto. }
  destruct (workers s) as [|kp0 ws] eqn:Hws; [simpl in Hlen; lia|].
  destruct (Hall 0 kp0 eq_refl) as (v0 & -> & Hv0).
  assert (Hcalls : upstream_calls s = [k]).
  { apply NoDup_all_same; [done| |].
    - intros x Hx. by eapply elem_of_replicate_inv, Hin.
    - apply Hiff. left. eauto. }
  destruct (Hval k v0 Hv0) as (i & Hi & Hres).
  rewrite Hcalls in Hi. destruct i as [|i]; [|done].
  split; [done|]. symmetry. apply replicate_as_Forall. split; [done|].
  apply Forall_lookup_2. intros t kp Ht.
  destruct (Hall t kp Ht) as (v & -> & Hv). congruence.
Qed.

End CacheTheorems.

Lemma cache_single_fetch_witness :
  let s := StatsCache.run sample_upstream sample_schedule
             (StatsCache.init (replicate 3 sample_key)) in
  3 ≠ 0 ∧
  Forall StatsCache.has_returned (StatsCache.workers s) ∧
  (StatsCache.in_flight s ≤ 1)%nat ∧
  StatsCache.upstream_calls s = [sample_key] ∧
  StatsCache.workers s
  = replicate 3 (sample_key, StatsCache.Returned (StatsCache.Found 42)).
Proof.
  intros s.
  assert (Hret : Forall StatsCache.has_returned (StatsCache.workers s)).
  { vm_compute. by repeat constructor. }
  destruct (cache_single_fetch sample_upstream 3 sample_key sample_schedule)
    as [Hflight Hdone].
  destruct (Hdone ltac:(done) Hret) as [Hcalls Hworkers].
  done.
Defined.

(** ** Every worker is served when the workers run one after the other *)

Section CacheProgress.

Context {stats : Type} (upstream : nat → StatsCache.key → option stats).

Import StatsCache.

Implicit Types (l : list (key * @pc stats)).

Lemma lookup_focus l1 l2 (x : key * @pc stats) :
  (l1 ++ x :: l2) !! length l1 = Some x.
Proof. by apply list_lookup_middle. Qed.

Lemma insert_focus l1 l2 (x y : key * @pc stats) :
  <[length l1 := y]> (l1 ++ x :: l2) = l1 ++ y :: l2.
Proof. by rewrite insert_app_r_alt, Nat.sub_diag by lia. Qed.

Lemma step_acquire l1 l2 k c calls :
  step upstream (length l1)
    {| player_stats_cache := c; cache_lock := None; upstream_calls := calls;
       workers := l1 ++ (k, Waiting) :: l2 |}
  = Some {| player_stats_cache := c; cache_lock := Some (length l1);
            upstream_calls := calls; workers := l1 ++ (k, Checking) :: l2 |}.
Proof.
  unfold step, set_pc; simpl. rewrite lookup_focus; simpl.
  by rewrite insert_focus.
Qed.

Lemma step_miss l1 l2 k c lock calls :
  c !! k = None →
  step upstream (length l1)
    {| player_stats_cache := c; cache_lock := lock; upstream_calls := calls;
       workers := l1 ++ (k, Checking) :: l2 |}
  = Some {| player_stats_cache := c; cache_lock := lock;
            upstream_calls := calls ++ [k];
            workers := l1 ++ (k, Fetching) :: l2 |}.
Proof.
  intros Hc. unfold step, set_pc; simpl. rewrite lookup_focus; simpl.
  by rewrite Hc, insert_focus.
Qed.

Lemma step_hit l1 l2 k c lock calls v :
  c !! k = Some v →
  step upstream (length l1)
    {| player_stats_cache := c; cache_lock := lock; upstream_calls := calls;
       workers := l1 ++ (k, Checking) :: l2 |}
  = Some {| player_stats_cache := c; cache_lock := lock;
            upstream_calls := calls;
            workers := l1 ++ (k, Releasing v) :: l2 |}.
Proof.
  intros Hc. unfold step, set_pc; simpl. rewrite lookup_focus; simpl.
  by rewrite Hc, insert_focus.
Qed.

Lemma step_fetched l1 l2 k c lock calls :
  step upstream (length l1)
    {| player_stats_cache := c; cache_lock := lock; upstream_calls := calls;
       workers := l1 ++ (k, Fetching) :: l2 |}
  = Some {| player_stats_cache :=
              <[k := resolve (upstream (length calls - 1) k)]> c;
            cache_lock := lock; upstream_calls := calls;
            workers :=
              l1 ++ (k, Releasing (resolve (upstream (length calls - 1) k)))
                 :: l2 |}.
Proof.
  unfold step, set_pc; simpl. rewrite lookup_focus; simpl.
  by rewrite insert_focus.
Qed.

Lemma step_release l1 l2 k c lock calls v :
  step upstream (length l1)
    {| player_stats_cache := c; cache_lock := lock; upstream_calls := calls;
       workers := l1 ++ (k, Releasing v) :: l2 |}
  = Some {| player_stats_cache := c; cache_lock := None;
            upstream_calls := calls; workers := l1 ++ (k, Returned v) :: l2 |}.
Proof.
  unfold step, set_pc; simpl. rewrite lookup_focus; simpl.
  by rewrite insert_focus.
Qed.

Lemma step_returned l1 l2 k c lock calls v :
  step upstream (length l1)
    {| player_stats_cache := c; cache_lock := lock; upstream_calls := calls;
       workers := l1 ++ (k, Returned v) :: l2 |}
  = None.
Proof. unfold step; simpl. by rewrite lookup_focus. Qed.

Lemma serve_first l1 l2 k :
  run upstream (replicate 4 (length l1))
    {| player_stats_cache := ∅; cache_lock := None; upstream_calls := [];
       workers := l1 ++ (k, Waiting) :: l2 |}
  = {| player_stats_cache := <[k := resolve (upstream 0 k)]> ∅;
       cache_lock := None; upstream_calls := [k];
       workers := l1 ++ (k, Returned (resolve (upstream 0 k))) :: l2 |}.
Proof.
  cbn [run replicate].
  rewrite step_acquire. cbn [from_option id].
  rewrite step_miss by apply lookup_empty. cbn [from_option id].
  rewrite step_fetched. cbn [from_option id].
  rewrite step_release. done.
Qed.

Lemma serve_next l1 l2 k v :
  run upstream (replicate 4 (length l1))
    {| player_stats_cache := <[k := v]> ∅; cache_lock := None;
       upstream_calls := [k]; workers := l1 ++ (k, Waiting) :: l2 |}
  = {| player_stats_cache := <[k := v]> ∅; cache_lock := None;
       upstream_calls := [k]; workers := l1 ++ (k, Returned v) :: l2 |}.
Proof.
  cbn [run replicate].
  rewrite step_acquire. cbn [from_option id].
  rewrite (step_hit _ _ _ _ _ _ v) by apply lookup_insert_eq. cbn [from_option id].
  rewrite step_release. cbn [from_option id].
  by rewrite step_returned.
Qed.

Lemma run_app schedule1 schedule2 (s : @cache_state stats) :
  run upstream (schedule1 ++ schedule2) s
  = run upstream schedule2 (run upstream schedule1 s).
Proof. revert s. induction schedule1 as [|t rest IH]; intros s; simpl; auto. Qed.

Lemma serve_one n j k :
  (j < n)%nat →
  run upstream (replicate 4 j) (served upstream n j k)
  = served upstream n (S j) k.
Proof.
  intros Hj. unfold served.
  set (R := (k, Returned (resolve (upstream 0 k)))).
  set (W := (k, @Waiting stats)).
  replace (replicate j R ++ replicate (n - j) W)
    with (replicate j R ++ W :: replicate (n - S j) W)
    by (replace (n - j) with (S (n - S j)) by lia; done).
  replace (replicate (S j) R ++ replicate (n - S j) W)
    with (replicate j R ++ R :: replicate (n - S j) W)
    by (by rewrite replicate_S_end, <- app_assoc).
  replace (replicate 4 j) with (replicate 4 (length (replicate j R)))
    by (by rewrite length_replicate).
  destruct j; [apply serve_first | apply serve_next].
Qed.

Lemma serve_all n k : ∀ m j,
  (j + m ≤ n)%nat →
  run upstream (t ← seq j m; [t; t; t; t]) (served upstream n j k)
  = served upstream n (j + m) k.
Proof.
  induction m as [|m IH]; intros j Hle.
  - by rewrite Nat.add_0_r.
  - cbn [seq mbind list_bind]. change [j; j; j; j] with (replicate 4 j).
    rewrite run_app, serve_one by lia.
    rewrite IH by lia. f_equal. lia.
Qed.

(** For every number of workers, the schedule that runs them one after the
    other lets all of them return. *)
Lemma one_by_one_returns n k :
  Forall has_returned
    (workers (run upstream (one_by_one n) (init (replicate n k)))).
Proof.
  assert (Hinit : init (replicate n k) = served upstream n 0 k).
  { unfold init, served. simpl. by rewrite fmap_replicate, Nat.sub_0_r. }
  unfold one_by_one. rewrite Hinit, serve_all by lia. simpl.
  rewrite Nat.sub_diag. simpl. rewrite app_nil_r.
  by apply Forall_replicate.
Qed.

End CacheProgress.

(** ** An event whose fetch keeps failing *)

Lemma retry_loop_cons w event_id retry rest props_data :
  retry_loop w event_id (retry :: rest) props_data
  = (r <- try_except
            (pd <- get_event_props w event_id ;; ret (pd, truthy pd))
            ((if bool_decide (retry < max_retries - 1)%nat then sleep Retry 2
              else ret tt) ;;;
             ret (props_data, false)) ;;
     if r.2 then ret r.1 else retry_loop w event_id rest r.1).
Proof. reflexivity. Qed.




(* ===================================================================== *)
(** * Part IV: further properties of the code *)
(* ===================================================================== *)

(** ** The player aggregator: order, players, exact sets *)

Lemma ingest_lookup f c player_name :
  unique_players (ingest f c) !! player_name
  = if decide (c_player c = player_name)
    then Some (add_prop (c_category c) (c_prop c)
                 (default new_player (unique_players f !! player_name)))
    else unique_players f !! player_name.
Proof.
  unfold ingest. case_decide as Heq.
  - subst. apply process_player_data_lookup.
  - by apply process_player_data_lookup_ne.
Qed.

Lemma ingest_all_lookup cs : ∀ f player_name,
  unique_players (ingest_all cs f) !! player_name
  = record_after (unique_players f !! player_name) (calls_for player_name cs).
Proof.
  induction cs as [|c cs IH]; intros f player_name; [done|].
  unfold ingest_all in *. cbn [foldl]. rewrite IH, ingest_lookup.
  unfold calls_for. rewrite filter_cons.
  by destruct (decide (c_player c = player_name)).
Qed.

(** X1: the stored list of a player is, in processing order, the list of
    the props ingested under exactly that name: nothing is reordered,
    dropped or merged. *)
Theorem stored_props_in_processing_order
    (cs : list ingest_call) (player_name : string) :
  props_of (ingest_all cs reset) player_name
  = (λ c, make_prop_info (c_category c) (c_prop c)) <$> calls_for player_name cs.
Proof. by rewrite props_of_ingest_all. Qed.

(** X2: players do not interfere.  After any sequence of ingests the entry
    of a player is the one that the calls carrying that player's name alone
    would have produced; calls for other names leave it as it is. *)
Theorem players_do_not_interfere (cs : list ingest_call) (player_name : string) :
  unique_players (ingest_all cs reset) !! player_name
  = unique_players (ingest_all (calls_for player_name cs) reset) !! player_name.
Proof.
  rewrite !ingest_all_lookup. f_equal.
  unfold calls_for. symmetry. apply list_filter_filter_l. auto.
Qed.

Lemma dom_ingest f c :
  dom (unique_players (ingest f c)) = {[ c_player c ]} ∪ dom (unique_players f).
Proof.
  apply set_eq. intros name.
  rewrite elem_of_union, elem_of_singleton, !elem_of_dom, ingest_lookup.
  case_decide as Heq.
  - split; [auto | eauto].
  - split; [auto|]. intros [?|?]; [congruence | done].
Qed.

(** X3: the keys of [unique_players] are exactly the distinct player names
    that were ingested, so the number of unique players is the number of
    distinct names. *)
Theorem unique_players_are_the_names (cs : list ingest_call) :
  dom (unique_players (ingest_all cs reset)) = list_to_set (c_player <$> cs) ∧
  size (unique_players (ingest_all cs reset))
  = length (remove_dups (c_player <$> cs)).
Proof.
  assert (Hdom : ∀ f, dom (unique_players (ingest_all cs f))
                      = list_to_set (c_player <$> cs) ∪ dom (unique_players f)).
  { induction cs as [|c cs IH]; intros f.
    - simpl. by rewrite (left_id_L ∅ (∪)).
    - unfold ingest_all in *. cbn [foldl]. rewrite IH, dom_ingest.
      apply set_eq. intros x.
      rewrite fmap_cons, list_to_set_cons, !elem_of_union. tauto. }
  assert (Hd : dom (unique_players (ingest_all cs reset))
               = list_to_set (c_player <$> cs)).
  { rewrite Hdom. simpl. rewrite dom_empty_L. by rewrite (right_id_L ∅ (∪)). }
  split; [done|].
  rewrite <- size_dom, Hd.
  assert (Heq : list_to_set (c_player <$> cs)
                =@{gset string} list_to_set (remove_dups (c_player <$> cs))).
  { apply set_eq. intros x.
    by rewrite !elem_of_list_to_set, elem_of_remove_dups. }
  rewrite Heq. apply size_list_to_set, NoDup_remove_dups.
Qed.

Lemma list_to_set_fmap_snoc {A} (g : A → string) (l : list A) (x : A) :
  list_to_set (g <$> (l ++ [x])) =@{gset string} list_to_set (g <$> l) ∪ {[ g x ]}.
Proof.
  rewrite fmap_app. change (g <$> [x]) with [g x]. apply list_to_set_snoc_L.
Qed.

Lemma add_prop_exact category pd r :
  r = new_player ∨ record_exact r → record_exact (add_prop category pd r).
Proof.
  intros Hr. unfold record_exact, add_prop; simpl.
  rewrite !list_to_set_fmap_snoc. simpl.
  split; [by destruct (props r)|].
  destruct Hr as [-> | (_ & -> & -> & ->)]; done.
Qed.

Lemma ingest_all_exact cs : ∀ f,
  (∀ name r, unique_players f !! name = Some r → record_exact r) →
  ∀ name r, unique_players (ingest_all cs f) !! name = Some r → record_exact r.
Proof.
  induction cs as [|c cs IH]; intros f Hf; [done|].
  unfold ingest_all in *. cbn [foldl]. apply IH.
  intros name r. rewrite ingest_lookup. case_decide as Heq; [|apply Hf].
  intros [= <-]. apply add_prop_exact.
  destruct (unique_players f !! name) as [r0|] eqn:E; simpl; [|by left].
  right. by eapply Hf.
Qed.

(** X4: after any sequence of ingests, every player record has at least
    one stored prop, and its three sets hold exactly the categories, the
    games and the bookmakers of its stored props: nothing is in a set that
    no stored prop accounts for. *)
Theorem player_sets_are_exact (cs : list ingest_call) (player_name : string)
    (r : player_record) :
  unique_players (ingest_all cs reset) !! player_name = Some r →
  record_exact r.
Proof.
  apply ingest_all_exact. intros name r0. simpl. by rewrite lookup_empty.
Qed.

Lemma player_sets_are_exact_witness :
  unique_players
    (ingest_all [IngestCall "Player X" "batter_hits" sample_over_prop] reset)
  !! "Player X"
  = Some (add_prop "batter_hits" sample_over_prop new_player) ∧
  record_exact (add_prop "batter_hits" sample_over_prop new_player).
Proof.
  assert (Hl : unique_players
                 (ingest_all [IngestCall "Player X" "batter_hits" sample_over_prop]
                    reset) !! "Player X"
               = Some (add_prop "batter_hits" sample_over_prop new_player)).
  { by rewrite ingest_all_lookup. }
  split; [exact Hl|].
  exact (player_sets_are_exact _ _ _ Hl).
Defined.

(** ** Invariants of a whole run *)

Lemma kept_process_response I event_id game commence_time r :
  ingest_closed I → keeps I (process_response event_id game commence_time r).
Proof.
  intros (HI & Hkeys & Hstep).
  apply keeps_for_each. intros bk.
  apply keeps_bind; [apply keeps_getitem|]. intros bookmaker_name.
  apply keeps_for_each. intros mk.
  apply keeps_bind; [apply keeps_getitem|]. intros market_key.
  apply keeps_for_each. intros o m Hm.
  destruct (normalize event_id game commence_time bookmaker_name bk market_key mk o)
    as [e|pd] eqn:Hn.
  - by rewrite (process_outcome_malformed _ _ _ _ _ _ _ _ _ _ Hn).
  - rewrite (process_outcome_normalized _ _ _ _ _ _ _ _ _ _ Hn (Hkeys m Hm)).
    apply normalize_inr in Hn as (_ & _ & <- & _). simpl. by apply Hstep.
Qed.

Lemma kept_events_loop I w delay n events : ∀ i,
  ingest_closed I → keeps I (events_loop w delay n i events).
Proof.
  induction events as [|ev rest IH]; intros i HI; simpl; [apply keeps_ret|].
  apply keeps_bind; [|intros _; by apply IH].
  destruct HI as (Hagg & Hrest). unfold process_event.
  repeat (apply keeps_bind; [apply keeps_getitem|]; intros ?).
  apply keeps_bind; [by apply keeps_append_summary|]. intros _.
  apply keeps_bind; [by apply keeps_retry_loop|]. intros props_data.
  apply keeps_bind.
  - destruct props_data as [r|]; [|apply keeps_ret].
    destruct (truthy (Some r)); [by apply kept_process_response | apply keeps_ret].
  - intros _. case_bool_decide; [by apply keeps_sleep | apply keeps_ret].
Qed.

(** An ingest-closed invariant of the freshly reset state holds at the end
    of every run, however the run ends. *)
Lemma kept_fetch_all_props_to_excel I w max_events delay filename f :
  ingest_closed I → I (boot reset) →
  I (fetch_all_props_to_excel w max_events delay filename (boot f)).1.
Proof.
  intros HI Hboot. pose proof HI as (Hagg & _).
  unfold fetch_all_props_to_excel.
  apply (keeps_after I (λ m, built m = [])); [| |done].
  - intros m Hm. split; [|by exists tt]. by apply (Hagg (boot reset)).
  - intros _. apply keeps_bind; [by apply keeps_get_mlb_events|].
    intros [|ev events]; [apply keeps_ret|].
    apply keeps_bind; [by apply keeps_clear_summary|]. intros _.
    apply keeps_bind; [by apply kept_events_loop|]. intros _.
    apply keeps_try_except; [|apply keeps_ret].
    apply keeps_bind; [by apply keeps_create_excel_workbook|].
    intros _. apply keeps_ret.
Qed.

Lemma replay_snoc ps pd :
  replay (ps ++ [pd]) = ingest_prop (Category pd) pd (replay ps).
Proof. unfold replay. by rewrite foldl_app. Qed.

Lemma replay_bucket_keys ps : bucket_keys (replay ps).
Proof.
  induction ps as [|pd ps IH] using rev_ind; [apply reset_bucket_keys|].
  rewrite replay_snoc. by apply ingest_prop_bucket_keys.
Qed.

Lemma replayed_ingest_closed : ingest_closed replayed.
Proof.
  split_and!.
  - intros m1 m2 Hs Hb. unfold replayed. by rewrite Hs, Hb.
  - intros m Hm. rewrite Hm. apply replay_bucket_keys.
  - intros m pd Hm. unfold replayed in *; simpl. by rewrite replay_snoc, Hm.
Qed.

Lemma run_replayed w max_events delay filename f :
  replayed (fetch_all_props_to_excel w max_events delay filename (boot f)).1.
Proof. by apply kept_fetch_all_props_to_excel; [apply replayed_ingest_closed|]. Qed.

(** ** What the buckets hold *)

Lemma over_props_ingest_prop market_key pd f :
  over_props (ingest_prop market_key pd f)
  = if decide (market_key ∈ prop_categories ∧ lower (Bet_Type pd) = "over")
    then append_bucket market_key pd (over_props f) else over_props f.
Proof.
  unfold ingest_prop, routed. repeat case_bool_decide; simpl;
    case_decide; try done; tauto.
Qed.

Lemma under_props_ingest_prop market_key pd f :
  under_props (ingest_prop market_key pd f)
  = if decide (market_key ∈ prop_categories ∧ lower (Bet_Type pd) = "under")
    then append_bucket market_key pd (under_props f) else under_props f.
Proof.
  unfold ingest_prop, routed.
  case_bool_decide as Hcat;
    [case_bool_decide as Hover; [|case_bool_decide as Hunder]|];
    simpl; case_decide as Hd; try done; try tauto.
  destruct Hd as [_ Hu]. by rewrite Hover in Hu.
Qed.

Lemma empty_buckets_lookup_None k :
  k ∉ prop_categories → empty_buckets !! k = None.
Proof.
  intros Hk. unfold empty_buckets. apply not_elem_of_list_to_map_1.
  rewrite <- list_fmap_compose. intros Hin.
  apply list_elem_of_fmap in Hin as (c & -> & Hc). done.
Qed.

Lemma append_bucket_lookup market_key pd b k l :
  b !! market_key = Some l →
  append_bucket market_key pd b !! k
  = if decide (k = market_key) then Some (l ++ [pd]) else b !! k.
Proof.
  intros Hl. unfold append_bucket. rewrite Hl. case_decide as Heq.
  - subst. apply lookup_insert_eq.
  - by apply lookup_insert_ne.
Qed.

Lemma replay_over_props ps : ∀ category,
  over_props (replay ps) !! category
  = if decide (category ∈ prop_categories)
    then Some (over_of category ps) else None.
Proof.
  induction ps as [|pd ps IH] using rev_ind; intros category.
  - simpl. case_decide; [by apply empty_buckets_lookup
                        | by apply empty_buckets_lookup_None].
  - rewrite replay_snoc, over_props_ingest_prop.
    unfold over_of in *. rewrite filter_app, filter_cons, filter_nil.
    destruct (decide (Category pd ∈ prop_categories ∧ lower (Bet_Type pd) = "over"))
      as [[Hcat Hover]|Hno].
    + pose proof (IH (Category pd)) as Hb. rewrite decide_True in Hb by done.
      rewrite (append_bucket_lookup _ _ _ _ _ Hb), IH.
      destruct (decide (category = Category pd)) as [->|Hne].
      * rewrite !decide_True by done. done.
      * rewrite (decide_False (P := Category pd = category ∧ _))
          by (by intros [<- _]).
        by rewrite app_nil_r.
    + rewrite IH. case_decide as Hc; [|done].
      rewrite decide_False; [by rewrite app_nil_r|].
      intros [Heq Hover]. apply Hno. by rewrite Heq.
Qed.

Lemma replay_under_props ps : ∀ category,
  under_props (replay ps) !! category
  = if decide (category ∈ prop_categories)
    then Some (under_of category ps) else None.
Proof.
  induction ps as [|pd ps IH] using rev_ind; intros category.
  - simpl. case_decide; [by apply empty_buckets_lookup
                        | by apply empty_buckets_lookup_None].
  - rewrite replay_snoc, under_props_ingest_prop.
    unfold under_of in *. rewrite filter_app, filter_cons, filter_nil.
    destruct (decide (Category pd ∈ prop_categories ∧ lower (Bet_Type pd) = "under"))
      as [[Hcat Hunder]|Hno].
    + pose proof (IH (Category pd)) as Hb. rewrite decide_True in Hb by done.
      rewrite (append_bucket_lookup _ _ _ _ _ Hb), IH.
      destruct (decide (category = Category pd)) as [->|Hne].
      * rewrite !decide_True by done. done.
      * rewrite (decide_False (P := Category pd = category ∧ _))
          by (by intros [<- _]).
        by rewrite app_nil_r.
    + rewrite IH. case_decide as Hc; [|done].
      rewrite decide_False; [by rewrite app_nil_r|].
      intros [Heq Hunder]. apply Hno. by rewrite Heq.
Qed.

(** X5: at the end of every run the two bucket dictionaries have exactly
    the 12 categories as keys, and the list of each category holds exactly
    the props built in the run with that market key and a side lowercasing
    to ['over'] (respectively ['under']), in the order in which they were
    built. *)
Theorem buckets_hold_their_props
    (w : world) (max_events : option Z) (delay_between_requests : Q)
    (filename : option string) (f : fetcher) (category : string) :
  let m := (fetch_all_props_to_excel w max_events delay_between_requests
              filename (boot f)).1 in
  over_props (self m) !! category
  = (if decide (category ∈ prop_categories)
     then Some (over_of category (built m)) else None) ∧
  under_props (self m) !! category
  = (if decide (category ∈ prop_categories)
     then Some (under_of category (built m)) else None).
Proof.
  intros m.
  pose proof (run_replayed w max_events delay_between_requests filename f) as Hm.
  fold m in Hm. rewrite Hm. split.
  - apply replay_over_props.
  - apply replay_under_props.
Qed.

(** ** The report: the combined sheet and the summary sheet *)

Lemma prop_categories_NoDup : NoDup prop_categories.
Proof. apply (bool_decide_unpack _). by vm_compute. Qed.

Lemma filter_or_disjoint {A} (P Q : A → Prop)
    `{!∀ x, Decision (P x)} `{!∀ x, Decision (Q x)} (l : list A) :
  (∀ x, P x → Q x → False) →
  filter (λ x, P x ∨ Q x) l ≡ₚ filter P l ++ filter Q l.
Proof.
  intros Hdisj. induction l as [|x l IH]; [done|].
  rewrite !filter_cons.
  destruct (decide (P x)) as [HP|HP], (decide (Q x)) as [HQ|HQ].
  - destruct (Hdisj x HP HQ).
  - rewrite decide_True by auto. simpl. by rewrite IH.
  - rewrite decide_True by auto. rewrite IH. apply Permutation_middle.
  - rewrite decide_False by tauto. done.
Qed.

(** The props of the categories of a duplicate-free list, category by
    category, are the props whose category is in the list. *)
Lemma concat_filter_by_category (R : prop_data → Prop) `{!∀ pd, Decision (R pd)}
    (ps : list prop_data) (cats : list string) :
  NoDup cats →
  mjoin ((λ c, filter (λ pd, Category pd = c ∧ R pd) ps) <$> cats)
  ≡ₚ filter (λ pd, Category pd ∈ cats ∧ R pd) ps.
Proof.
  induction 1 as [|c cats Hc Hnd IH]; simpl.
  - rewrite (list_filter_iff _ (λ _, False)); 
      [|intros pd; split; [intros [Hin _]; by apply elem_of_nil in Hin | done]].
    by induction ps.
  - rewrite IH.
    rewrite <- (filter_or_disjoint (λ pd, Category pd = c ∧ R pd)
                  (λ pd, Category pd ∈ cats ∧ R pd)).
    + apply reflexive_eq, list_filter_iff. intros pd.
      rewrite elem_of_cons. tauto.
    + intros pd [<- _] [Hin _]. done.
Qed.

Lemma subscript_over_replay ps category :
  category ∈ prop_categories →
  subscript (over_props (replay ps)) category = inr (over_of category ps).
Proof.
  intros Hc. unfold subscript. by rewrite replay_over_props, decide_True.
Qed.

Lemma subscript_under_replay ps category :
  category ∈ prop_categories →
  subscript (under_props (replay ps)) category = inr (under_of category ps).
Proof.
  intros Hc. unfold subscript. by rewrite replay_under_props, decide_True.
Qed.

Lemma combine_all_props_replay ps cats : ∀ all_data,
  cats ⊆ prop_categories →
  combine_all_props (replay ps) cats all_data
  = inr (all_data
         ++ mjoin ((λ c, over_of c ps ++ under_of c ps) <$> cats)).
Proof.
  induction cats as [|c cats IH]; intros all_data Hsub; simpl.
  - by rewrite app_nil_r.
  - rewrite subscript_over_replay, subscript_under_replay
      by (apply Hsub; by left).
    rewrite IH by (intros x Hx; apply Hsub; by right).
    by rewrite <- !app_assoc.
Qed.

Lemma mjoin_app_pointwise {A B} (g h : A → list B) (l : list A) :
  mjoin ((λ x, g x ++ h x) <$> l) ≡ₚ mjoin (g <$> l) ++ mjoin (h <$> l).
Proof.
  induction l as [|x l IH]; [done|]. simpl. rewrite IH.
  rewrite <- !app_assoc. apply Permutation_app_head.
  rewrite !app_assoc. apply Permutation_app_tail, Permutation_app_comm.
Qed.

Lemma recognized_props_by_category ps :
  mjoin ((λ c, over_of c ps ++ under_of c ps) <$> prop_categories)
  ≡ₚ filter recognized ps.
Proof.
  rewrite mjoin_app_pointwise. unfold over_of, under_of.
  rewrite !concat_filter_by_category by apply prop_categories_NoDup.
  rewrite <- filter_or_disjoint.
  - apply reflexive_eq, list_filter_iff. intros pd. unfold recognized. tauto.
  - intros pd [_ Hover] [_ Hunder]. by rewrite Hover in Hunder.
Qed.

(** X6: at the end of every run, [all_data] of the combined sheet is
    computed without raising and is a rearrangement of the props built in
    the run that have one of the 12 categories and a side lowercasing to
    ['over'] or ['under']: each such prop is listed exactly once, and no
    other prop is listed.  The sheet shows "No props data available"
    exactly when the run built no such prop, and otherwise shows their
    number. *)
Theorem combined_sheet_lists_recognized_props
    (w : world) (max_events : option Z) (delay_between_requests : Q)
    (filename : option string) (f : fetcher) :
  let m := (fetch_all_props_to_excel w max_events delay_between_requests
              filename (boot f)).1 in
  (∃ all_data,
     combine_all_props (self m) prop_categories [] = inr all_data ∧
     all_data ≡ₚ filter recognized (built m)) ∧
  combined_sheet_count (self m)
  = inr (match filter recognized (built m) with
         | [] => None
         | pd :: rest => Some (length (pd :: rest))
         end).
Proof.
  intros m.
  pose proof (run_replayed w max_events delay_between_requests filename f) as Hm.
  fold m in Hm.
  assert (Hall : combine_all_props (self m) prop_categories []
                 = inr (mjoin ((λ c, over_of c (built m) ++ under_of c (built m))
                                 <$> prop_categories))).
  { rewrite Hm. by rewrite combine_all_props_replay. }
  pose proof (recognized_props_by_category (built m)) as Hperm.
  split; [eauto|].
  unfold combined_sheet_count. rewrite Hall.
  destruct (mjoin _) as [|pd all_data] eqn:Hj.
  - apply Permutation_nil_l in Hperm. by rewrite <- Hperm.
  - destruct (filter recognized (built m)) as [|pd' rest] eqn:Hf.
    + by apply Permutation_nil_r in Hperm.
    + by rewrite (Permutation_length Hperm).
Qed.

Lemma for_rows_inr {A B} (g : A → exn + B) (h : A → B) (xs : list A) :
  (∀ x, x ∈ xs → g x = inr (h x)) → for_rows g xs = inr (h <$> xs).
Proof.
  induction xs as [|x xs IH]; intros Hg; [done|]. simpl.
  rewrite Hg by (by left). rewrite IH; [done|].
  intros y Hy. apply Hg. by right.
Qed.

Lemma sum_list_with_fmap {A B} (g : A → B) (h : B → nat) (l : list A) :
  sum_list_with h (g <$> l) = sum_list_with (h ∘ g) l.
Proof. induction l as [|x l IH]; simpl; [done | by f_equal]. Qed.

Lemma sum_list_with_ext {A} (g h : A → nat) (l : list A) :
  (∀ x, g x = h x) → sum_list_with g l = sum_list_with h l.
Proof. intros Hgh. induction l as [|x l IH]; simpl; [done|]. by rewrite Hgh, IH. Qed.

Lemma length_mjoin_fmap {A B} (g : A → list B) (l : list A) :
  length (mjoin (g <$> l)) = sum_list_with (λ x, length (g x)) l.
Proof.
  induction l as [|x l IH]; simpl; [done|]. rewrite length_app. by f_equal.
Qed.

Lemma elem_of_players_in_category f category player_name :
  player_name ∈ players_in_category f category ↔
  ∃ r, unique_players f !! player_name = Some r ∧ category ∈ categories r.
Proof.
  unfold players_in_category. rewrite elem_of_dom. split.
  - intros [r Hr]. apply map_lookup_filter_Some in Hr as [Hr Hc]. eauto.
  - intros (r & Hr & Hc). exists r. by apply map_lookup_filter_Some.
Qed.

Lemma players_in_category_size f category :
  (size (players_in_category f category) ≤ size (unique_players f))%nat.
Proof.
  rewrite <- (size_dom (D := gset string) (unique_players f)).
  apply subseteq_size. unfold players_in_category. apply dom_filter_subseteq.
Qed.

Lemma summary_row_of_replay ps category :
  category ∈ prop_categories →
  summary_row_of (replay ps) category
  = inr (expected_summary_row ps
           (size (players_in_category (replay ps) category)) category).
Proof.
  intros Hc. unfold summary_row_of, expected_summary_row.
  rewrite subscript_over_replay, subscript_under_replay by done.
  by case_bool_decide.
Qed.

(** X7: at the end of every run the summary sheet is computed without
    raising.  It has one row for each of the 12 categories, in their fixed
    order; the Over and Under counts of a row are the numbers of props built
    in the run with that category and side; the Total Props column adds up
    to the number of recognized props built; a category with props has at
    least one player, and no category has more players than there are unique
    players. *)
Theorem summary_sheet_adds_up
    (w : world) (max_events : option Z) (delay_between_requests : Q)
    (filename : option string) (f : fetcher) :
  let m := (fetch_all_props_to_excel w max_events delay_between_requests
              filename (boot f)).1 in
  ∃ sheet,
    create_summary_sheet (self m) (events_summary m) = inr sheet ∧
    sr_category <$> ss_rows sheet = prop_categories ∧
    sum_list_with sr_total_count (ss_rows sheet)
    = length (filter recognized (built m)) ∧
    Forall (λ row,
              row = expected_summary_row (built m) (sr_players row)
                      (sr_category row) ∧
              ((0 < sr_total_count row)%nat → (1 ≤ sr_players row)%nat) ∧
              (sr_players row ≤ ss_total_players sheet)%nat)
           (ss_rows sheet).
Proof.
  intros m.
  pose proof (run_replayed w max_events delay_between_requests filename f) as Hm.
  destruct (run_aggregate_matches_built w max_events delay_between_requests
              filename f) as [Hcons Hstored].
  fold m in Hm, Hcons, Hstored.
  set (row := λ c, expected_summary_row (built m)
                     (size (players_in_category (self m) c)) c).
  assert (Hrows : for_rows (summary_row_of (self m)) prop_categories
                  = inr (row <$> prop_categories)).
  { apply for_rows_inr. intros c Hc. unfold row. unfold replayed in Hm.
    rewrite Hm. by apply summary_row_of_replay. }
  eexists. unfold create_summary_sheet. rewrite Hrows. split; [done|].
  cbn [ss_rows ss_total_players]. split_and!.
  - rewrite <- list_fmap_compose. by rewrite list_fmap_id.
  - rewrite sum_list_with_fmap.
    rewrite <- (Permutation_length (recognized_props_by_category (built m))).
    rewrite length_mjoin_fmap. apply sum_list_with_ext. intros c.
    unfold row; simpl. by rewrite length_app.
  - apply Forall_fmap, Forall_forall. intros c Hc. unfold row; simpl.
    split_and!; [done| |apply players_in_category_size].
    intros Htotal.
    assert (Hpd : ∃ pd, pd ∈ built m ∧ Category pd = c).
    { destruct (over_of c (built m)) as [|pd l] eqn:Ho.
      - destruct (under_of c (built m)) as [|pd l] eqn:Hu;
          [simpl in Htotal; lia|].
        assert (Hin : pd ∈ under_of c (built m)) by (rewrite Hu; by left).
        apply list_elem_of_filter in Hin as [[Hcat _] Hin]. eauto.
      - assert (Hin : pd ∈ over_of c (built m)) by (rewrite Ho; by left).
        apply list_elem_of_filter in Hin as [[Hcat _] Hin]. eauto. }
    destruct Hpd as (pd & Hin & Hcat).
    assert (Hp : make_prop_info c pd ∈ props_of (self m) (Player pd)).
    { rewrite (proj1 (Hstored (Player pd))). unfold stored_for.
      apply list_elem_of_fmap. exists pd. split; [by rewrite Hcat|].
      by apply list_elem_of_filter. }
    unfold props_of in Hp.
    destruct (unique_players (self m) !! Player pd) as [r|] eqn:Hr;
      [|by apply elem_of_nil in Hp].
    assert (Hplayer : Player pd ∈ players_in_category (self m) c).
    { apply elem_of_players_in_category. exists r. split; [done|].
      by destruct (Hcons _ _ Hr _ Hp) as (Hc' & _). }
    destruct (decide (size (players_in_category (self m) c) = 0)) as [Hz|Hz];
      [|lia].
    apply size_empty_iff in Hz. by rewrite Hz in Hplayer.
Qed.

(** ** The order of strings *)

Lemma ascii_compare_lt_trans a b c :
  Ascii.compare a b = Lt → Ascii.compare b c = Lt → Ascii.compare a c = Lt.
Proof.
  unfold Ascii.compare. rewrite !N.compare_lt_iff. apply N.lt_trans.
Qed.

Lemma string_compare_lt_trans a : ∀ b c,
  String.compare a b = Lt → String.compare b c = Lt → String.compare a c = Lt.
Proof.
  induction a as [|x a IH]; intros [|y b] [|z c]; simpl; try done.
  destruct (Ascii.compare x y) eqn:Hxy; try done;
    destruct (Ascii.compare y z) eqn:Hyz; try done.
  - apply Ascii.compare_eq_iff in Hxy as ->.
    apply Ascii.compare_eq_iff in Hyz as ->.
    assert (Ascii.compare z z = Eq) as -> by apply N.compare_refl.
    apply IH.
  - apply Ascii.compare_eq_iff in Hxy as ->. by rewrite Hyz.
  - apply Ascii.compare_eq_iff in Hyz as <-. by rewrite Hxy.
  - by rewrite (ascii_compare_lt_trans x y z).
Qed.

Lemma string_compare_refl a : String.compare a a = Eq.
Proof.
  induction a as [|x a IH]; simpl; [done|].
  assert (Ascii.compare x x = Eq) as -> by apply N.compare_refl. done.
Qed.

Lemma str_le_lt_eq a b : str_le a b ↔ str_lt a b ∨ a = b.
Proof.
  unfold str_le, str_lt, String.leb, String.ltb. split.
  - destruct (String.compare a b) eqn:Hc; try done; auto.
    right. by apply String.compare_eq_iff.
  - intros [Hlt | ->].
    + by destruct (String.compare a b).
    + by rewrite string_compare_refl.
Qed.

Lemma str_lt_trans a b c : str_lt a b → str_lt b c → str_lt a c.
Proof.
  unfold str_lt, String.ltb. intros Hab Hbc.
  destruct (String.compare a b) eqn:H1; try done.
  destruct (String.compare b c) eqn:H2; try done.
  by rewrite (string_compare_lt_trans a b c).
Qed.

Lemma str_le_trans : Transitive str_le.
Proof.
  intros a b c [Hab| ->]%str_le_lt_eq [Hbc| ->]%str_le_lt_eq;
    apply str_le_lt_eq; eauto using str_lt_trans.
Qed.

Lemma str_le_total : Total str_le.
Proof. intros a b. apply String.leb_total. Qed.

Lemma item_le_trans {A} : Transitive (@item_le A).
Proof. intros a b c. unfold item_le. apply str_le_trans. Qed.

Lemma item_le_total {A} : Total (@item_le A).
Proof. intros a b. unfold item_le. apply str_le_total. Qed.

(** A duplicate-free list sorted by [<=] is sorted by [<]. *)
Lemma strictly_sorted (l : list string) :
  NoDup l → StronglySorted str_le l → StronglySorted str_lt l.
Proof.
  intros Hnd Hs. induction Hs as [|x l Hs IH Hall]; [constructor|].
  apply NoDup_cons in Hnd as [Hx Hnd]. constructor; [by apply IH|].
  apply Forall_forall. intros y Hy.
  eapply Forall_forall in Hall; [|exact Hy].
  apply str_le_lt_eq in Hall as [?| ->]; done.
Qed.

(** ** The players sheet *)

Lemma sorted_players_perm f :
  sorted_players f ≡ₚ map_to_list (unique_players f).
Proof. apply merge_sort_Permutation. Qed.

Lemma sorted_players_names f :
  StronglySorted str_lt ((sorted_players f).*1).
Proof.
  apply strictly_sorted.
  - rewrite sorted_players_perm. apply NoDup_fst_map_to_list.
  - pose proof (@StronglySorted_merge_sort _ item_le _ item_le_trans item_le_total
                  (map_to_list (unique_players f))) as Hs.
    fold (sorted_players f) in Hs.
    induction Hs as [|x l Hs IH Hall]; [constructor|].
    rewrite fmap_cons. constructor; [done|].
    apply Forall_fmap. by eapply Forall_impl.
Qed.

Lemma elem_of_sorted_players f player_name r :
  (player_name, r) ∈ sorted_players f ↔
  unique_players f !! player_name = Some r.
Proof. by rewrite sorted_players_perm, elem_of_map_to_list. Qed.

Lemma sorted_set_perm (s : gset string) : sorted_set s ≡ₚ elements s.
Proof. apply merge_sort_Permutation. Qed.

Lemma sorted_set_sorted (s : gset string) : StronglySorted str_lt (sorted_set s).
Proof.
  apply strictly_sorted.
  - rewrite sorted_set_perm. apply NoDup_elements.
  - apply (@StronglySorted_merge_sort _ str_le _ str_le_trans str_le_total).
Qed.

Lemma elem_of_sorted_set (s : gset string) x : x ∈ sorted_set s ↔ x ∈ s.
Proof. by rewrite sorted_set_perm, elem_of_elements. Qed.

Lemma total_props_insert u player_name r :
  total_props (<[player_name := r]> u)
  = length (props r) + total_props (delete player_name u).
Proof.
  unfold total_props. rewrite <- insert_delete_eq.
  by rewrite map_to_list_insert by apply lookup_delete_eq.
Qed.

Lemma total_props_process_player_data player_name category pd f :
  total_props (unique_players (process_player_data player_name category pd f))
  = S (total_props (unique_players f)).
Proof.
  unfold process_player_data; simpl.
  destruct (unique_players f !! player_name) as [r|] eqn:E.
  - rewrite <- (insert_id (unique_players f) player_name r E) at 1.
    rewrite alter_insert_eq, total_props_insert.
    rewrite <- (insert_id (unique_players f) player_name r E) at 2.
    rewrite total_props_insert. simpl. rewrite length_app. simpl. lia.
  - rewrite alter_insert_eq, total_props_insert. simpl.
    by rewrite delete_id.
Qed.

Lemma unique_players_replay ps :
  unique_players (replay ps) = unique_players (ingest_all (calls_of ps) reset).
Proof.
  induction ps as [|pd ps IH] using rev_ind; [done|].
  rewrite replay_snoc. unfold ingest_prop. rewrite routed_unique_players.
  unfold calls_of, ingest_all in *. rewrite fmap_app, foldl_app. simpl.
  unfold ingest at 1; simpl. unfold process_player_data. simpl. by rewrite IH.
Qed.

Lemma total_props_replay ps :
  total_props (unique_players (replay ps)) = length ps.
Proof.
  induction ps as [|pd ps IH] using rev_ind; [done|].
  rewrite replay_snoc. unfold ingest_prop. rewrite routed_unique_players.
  rewrite total_props_process_player_data, IH, length_app. simpl. lia.
Qed.

Lemma dom_ingest_all cs :
  dom (unique_players (ingest_all cs reset)) = list_to_set (c_player <$> cs).
Proof.
  assert (Hdom : ∀ f, dom (unique_players (ingest_all cs f))
                      = list_to_set (c_player <$> cs) ∪ dom (unique_players f)).
  { induction cs as [|c cs IH]; intros f.
    - simpl. by rewrite (left_id_L ∅ (∪)).
    - unfold ingest_all in *. cbn [foldl]. rewrite IH, dom_ingest.
      apply set_eq. intros x.
      rewrite fmap_cons, list_to_set_cons, !elem_of_union. tauto. }
  rewrite Hdom. simpl. rewrite dom_empty_L. by rewrite (right_id_L ∅ (∪)).
Qed.

Lemma run_unique_players w max_events delay filename f :
  let m := (fetch_all_props_to_excel w max_events delay filename (boot f)).1 in
  unique_players (self m)
  = unique_players (ingest_all (calls_of (built m)) reset).
Proof.
  intros m. pose proof (run_replayed w max_events delay filename f) as Hm.
  fold m in Hm. unfold replayed in Hm. rewrite Hm. apply unique_players_replay.
Qed.

Lemma calls_of_players ps : c_player <$> calls_of ps = Player <$> ps.
Proof. unfold calls_of. by rewrite <- list_fmap_compose. Qed.

(** X8: the players sheet at the end of every run.  The sheet shows
    "No players found" exactly when the run built no prop.  Otherwise its
    rows are in strictly ascending order of the player name, so that each
    player has one row, and the players are those named by the built props.
    The Props Count of a row is the number of props built for that player,
    and the column adds up to the number of props built in the run.  The
    categories of a row are in strictly ascending order, are the categories
    of the props built for the player, and the Categories Count is their
    number. *)
Theorem players_sheet_sorted_and_complete
    (w : world) (max_events : option Z) (delay_between_requests : Q)
    (filename : option string) (f : fetcher) :
  let m := (fetch_all_props_to_excel w max_events delay_between_requests
              filename (boot f)).1 in
  match create_players_sheet (self m) with
  | None => built m = []
  | Some rows =>
      built m ≠ [] ∧
      StronglySorted str_lt (pr_name <$> rows) ∧
      (∀ name, name ∈ pr_name <$> rows ↔ name ∈ Player <$> built m) ∧
      sum_list_with pr_props_count rows = length (built m) ∧
      Forall (λ row,
                pr_props_count row
                = length (filter (λ pd, Player pd = pr_name row) (built m)) ∧
                StronglySorted str_lt (pr_categories row) ∧
                (∀ c, c ∈ pr_categories row ↔
                      ∃ pd, pd ∈ built m ∧ Player pd = pr_name row ∧
                            Category pd = c) ∧
                pr_categories_count row = length (pr_categories row))
             rows
  end.
Proof.
  intros m.
  pose proof (run_replayed w max_events delay_between_requests filename f) as Hm.
  pose proof (run_unique_players w max_events delay_between_requests filename f)
    as Hu.
  destruct (run_aggregate_matches_built w max_events delay_between_requests
              filename f) as [Hcons Hstored].
  fold m in Hm, Hu, Hcons, Hstored. unfold replayed in Hm.
  assert (Hdom : dom (unique_players (self m))
                 = list_to_set (Player <$> built m)).
  { by rewrite Hu, dom_ingest_all, calls_of_players. }
  unfold create_players_sheet. case_decide as Hempty.
  - rewrite Hempty, dom_empty_L in Hdom.
    destruct (built m) as [|pd ps]; [done|].
    assert (Player pd ∈ (∅ : gset string)); [|done].
    rewrite Hdom. rewrite fmap_cons, list_to_set_cons.
    apply elem_of_union. left. by apply elem_of_singleton.
  - assert (Hnames : pr_name <$> (player_row_of <$> sorted_players (self m))
                     = (sorted_players (self m)).*1).
    { rewrite <- list_fmap_compose. done. }
    split_and!.
    + intros Hb. apply Hempty. apply dom_empty_iff_L.
      by rewrite Hdom, Hb.
    + rewrite Hnames. apply sorted_players_names.
    + intros name. rewrite Hnames, sorted_players_perm.
      rewrite <- (elem_of_list_to_set (C := gset string) name (Player <$> built m)).
      rewrite <- Hdom, elem_of_dom. split.
      * intros [[n r] [-> Hin]]%list_elem_of_fmap.
        apply elem_of_map_to_list in Hin. eauto.
      * intros [r Hr]. apply list_elem_of_fmap. exists (name, r).
        split; [done|]. by apply elem_of_map_to_list.
    + rewrite sum_list_with_fmap.
      change (pr_props_count ∘ player_row_of)
        with (λ kv : string * player_record, length (props kv.2)).
      rewrite sorted_players_perm. fold (total_props (unique_players (self m))).
      rewrite Hm at 1. apply total_props_replay.
    + apply Forall_fmap, Forall_forall. intros [name r] Hin.
      apply elem_of_sorted_players in Hin. simpl.
      assert (Hprops : props r = stored_for name (built m)).
      { rewrite <- (proj1 (Hstored name)). unfold props_of. by rewrite Hin. }
      assert (Hexact : record_exact r).
      { rewrite Hu in Hin. revert Hin. apply ingest_all_exact.
        intros n r0. simpl. by rewrite lookup_empty. }
      destruct Hexact as (_ & Hcats & _).
      split_and!.
      * rewrite Hprops. unfold stored_for. by rewrite length_fmap.
      * apply sorted_set_sorted.
      * intros c. rewrite elem_of_sorted_set, Hcats, elem_of_list_to_set.
        rewrite Hprops. unfold stored_for. rewrite <- list_fmap_compose.
        rewrite list_elem_of_fmap. split.
        -- intros (pd & -> & [Hp Hin']%list_elem_of_filter). eauto.
        -- intros (pd & Hin' & Hp & <-). exists pd. split; [done|].
           by apply list_elem_of_filter.
      * unfold size, set_size. simpl. by rewrite sorted_set_perm.
Qed.

(** ** The retry loop of one event *)

(** X9: the retry loop of an event never raises and touches neither
    [self] nor the built props.  It makes at least one and at most three
    requests, all of them for this event, with nothing but 2-second retry
    sleeps besides; it ends with [None] or with a response that the odds
    API gave for this event. *)
Theorem retry_loop_is_bounded (w : world) (event_id : string) (m : machine) :
  ∃ pd tr k,
    retry_loop w event_id (seq 0 max_retries) None m = (advance tr k m, inr pd) ∧
    Forall (attempt_effect event_id) tr ∧
    length (filter is_fetch tr) = k ∧ (1 ≤ k ≤ 3)%nat ∧
    (pd = None ∨ ∃ j r, net w j event_id = FetchJson r ∧ pd = Some r).
Proof.
  destruct (retry_loop_spec w event_id (seq 0 max_retries) None m)
    as (pd & tr & k & Heq & Htr & Hk & Hle & Hin & Hpd).
  exists pd, tr, k. split_and!; try done.
  - rewrite <- Hk.
    assert (Hf : EFetch event_id ∈ filter is_fetch tr).
    { apply list_elem_of_filter. split; [done|]. by apply Hin. }
    destruct (filter is_fetch tr); [by apply elem_of_nil in Hf | simpl; lia].
  - destruct Hpd as [?|[?|?]]; auto.
Qed.

Lemma retry_loop_first_success w event_id retries : ∀ i r props_data m,
  (i < length retries)%nat →
  (∀ j, (j < i)%nat → attempt_fails (net w (calls m + j) event_id)) →
  net w (calls m + i) event_id = FetchJson r →
  truthy (Some r) = true →
  ∃ tr,
    retry_loop w event_id retries props_data m
    = (advance tr (S i) m, inr (Some r)) ∧
    length (filter is_fetch tr) = S i.
Proof.
  induction retries as [|retry rest IH]; intros i r props_data m Hi Hfail Hnet Hr;
    [simpl in Hi; lia|].
  rewrite retry_loop_cons. unfold bind at 1. rewrite attempt_eq.
  destruct i as [|i].
  - rewrite Nat.add_0_r in Hnet. rewrite Hnet. cbn [fst snd]. rewrite Hr.
    by exists [EFetch event_id].
  - pose proof (Hfail 0 ltac:(lia)) as H0. rewrite Nat.add_0_r in H0.
    assert (Hrest : ∀ tr0,
              (∀ j, (j < i)%nat →
                    attempt_fails (net w (calls (advance tr0 1 m) + j) event_id)) ∧
              net w (calls (advance tr0 1 m) + i) event_id = FetchJson r).
    { intros tr0. simpl. split.
      - intros j Hj. rewrite <- Nat.add_assoc. apply Hfail. lia.
      - by rewrite <- Nat.add_assoc. }
    simpl in Hi.
    destruct (net w (calls m) event_id) as [r0| |] eqn:Hnet0; simpl in H0.
    + cbn [fst snd]. rewrite H0.
      destruct (IH i r (Some r0) (advance [EFetch event_id] 1 m) ltac:(lia)
                  (proj1 (Hrest _)) (proj2 (Hrest _)) Hr) as (tr & Heq & Hcount).
      rewrite Heq, advance_advance. exists ([EFetch event_id] ++ tr).
      split; [done|]. simpl. by rewrite Hcount.
    + cbn [fst snd].
      destruct (IH i r None (advance [EFetch event_id] 1 m) ltac:(lia)
                  (proj1 (Hrest _)) (proj2 (Hrest _)) Hr) as (tr & Heq & Hcount).
      rewrite Heq, advance_advance. exists ([EFetch event_id] ++ tr).
      split; [done|]. simpl. by rewrite Hcount.
    + cbn [fst snd].
      match goal with |- context [advance ?t 1 m] => set (tr0 := t) end.
      destruct (IH i r props_data (advance tr0 1 m) ltac:(lia)
                  (proj1 (Hrest _)) (proj2 (Hrest _)) Hr) as (tr & Heq & Hcount).
      rewrite Heq, advance_advance. exists (tr0 ++ tr).
      split; [done|]. rewrite filter_app, length_app, Hcount.
      unfold tr0. by case_bool_decide.
Qed.

(** X10: the loop stops at the first true response.  When the attempts
    before the [i]-th fail (by a caught [RequestException], by an escaping
    exception or by an empty JSON object) and the [i]-th attempt gives a
    non-empty object, that object is the result and exactly [i + 1]
    requests were made: none after the success. *)
Theorem retry_stops_at_first_success
    (w : world) (event_id : string) (i : nat) (r : response) (m : machine) :
  (i < max_retries)%nat →
  (∀ j, (j < i)%nat → attempt_fails (net w (calls m + j) event_id)) →
  net w (calls m + i) event_id = FetchJson r →
  truthy (Some r) = true →
  ∃ tr,
    retry_loop w event_id (seq 0 max_retries) None m
    = (advance tr (S i) m, inr (Some r)) ∧
    length (filter is_fetch tr) = S i.
Proof.
  intros Hi. apply retry_loop_first_success. by rewrite length_seq.
Qed.

Lemma retry_stops_at_first_success_witness :
  (1 < max_retries)%nat ∧
  (∀ j, (j < 1)%nat →
        attempt_fails (net flaky_world (calls (boot reset) + j) "e1")) ∧
  net flaky_world (calls (boot reset) + 1) "e1" = FetchJson sample_response ∧
  truthy (Some sample_response) = true ∧
  ∃ tr,
    retry_loop flaky_world "e1" (seq 0 max_retries) None (boot reset)
    = (advance tr 2 (boot reset), inr (Some sample_response)) ∧
    length (filter is_fetch tr) = 2.
Proof.
  assert (H1 : (1 < max_retries)%nat) by (unfold max_retries; lia).
  assert (H2 : ∀ j, (j < 1)%nat →
                 attempt_fails (net flaky_world (calls (boot reset) + j) "e1")).
  { intros j Hj. by replace j with 0 by lia. }
  refine (conj H1 (conj H2 (conj eq_refl (conj eq_refl _)))).
  exact (retry_stops_at_first_success flaky_world "e1" 1 sample_response
           (boot reset) H1 H2 eq_refl eq_refl).
Defined.



Lemma retry_loop_raised w event_id retry rest props_data m :
  net w (calls m) event_id = FetchRaised →
  retry_loop w event_id (retry :: rest) props_data m
  = retry_loop w event_id rest props_data
      (advance (EFetch event_id ::
                if bool_decide (retry < max_retries - 1)%nat
                then [ESleep Retry 2] else []) 1 m).
Proof.
  intros Hnet. rewrite retry_loop_cons. unfold bind at 1.
  by rewrite attempt_eq, Hnet.
Qed.

(** X12: when each of the three attempts lets an exception escape
    [get_event_props], the loop sleeps 2 seconds after the first and after
    the second attempt and not after the third, raises nothing itself, and
    leaves [props_data] as it was. *)
Theorem escaping_exceptions_back_off
    (w : world) (event_id : string) (props_data : option response)
    (m : machine) :
  (∀ j, (j < 3)%nat → net w (calls m + j) event_id = FetchRaised) →
  retry_loop w event_id (seq 0 max_retries) props_data m
  = (advance [EFetch event_id; ESleep Retry 2; EFetch event_id;
              ESleep Retry 2; EFetch event_id] 3 m,
     inr props_data).
Proof.
  intros Hnet. unfold max_retries. cbn [seq].
  rewrite retry_loop_raised
    by (rewrite <- (Nat.add_0_r (calls m)); apply Hnet; lia).
  rewrite retry_loop_raised by (apply Hnet; lia).
  rewrite retry_loop_raised
    by (simpl; rewrite <- Nat.add_assoc; apply Hnet; lia).
  rewrite !advance_advance. done.
Qed.

Lemma escaping_exceptions_back_off_witness :
  (∀ j, (j < 3)%nat →
        net raising_world (calls (boot reset) + j) "e1" = FetchRaised) ∧
  retry_loop raising_world "e1" (seq 0 max_retries) None (boot reset)
  = (advance [EFetch "e1"; ESleep Retry 2; EFetch "e1";
              ESleep Retry 2; EFetch "e1"] 3 (boot reset),
     inr None).
Proof.
  assert (Hnet : ∀ j, (j < 3)%nat →
            net raising_world (calls (boot reset) + j) "e1" = FetchRaised)
    by done.
  split; [exact Hnet|].
  exact (escaping_exceptions_back_off raising_world "e1" None (boot reset) Hnet).
Defined.

(** ** Accounting for a run: events, requests, effects *)







(** The run over a listing that is not empty, with the loop over the
    events as one step. *)
Lemma fetch_all_props_to_excel_eq w max_events delay filename events m :
  listing w = Some events → events ≠ [] →
  fetch_all_props_to_excel w max_events delay filename m
  = let evs := limit_events max_events events in
    match events_loop w delay (length evs) 1 evs (loop_start m) with
    | (m1, inl e) => (m1, inl e)
    | (m1, inr _) =>
        (advance [EWorkbook (workbook_name w filename)] 0 m1,
         inr (if workbook_ok w then workbook_name w filename else ""))
    end.
Proof.
  intros Hl Hne. unfold fetch_all_props_to_excel, get_mlb_events.
  unfold bind at 1 2 3. cbn [modify_self emit ret fst snd].
  rewrite Hl. cbn [from_option id].
  destruct events as [|ev0 events0]; [done|].
  unfold bind at 1 2.
  cbn [clear_summary self events_summary effects calls built].
  change (match max_events with
          | Some k => if (k =? 0)%Z then ev0 :: events0
                      else slice_to k (ev0 :: events0)
          | None => ev0 :: events0
          end) with (limit_events max_events (ev0 :: events0)).
  cbn zeta.
  set (evs := limit_events max_events (ev0 :: events0)).
  change {| self := reset; events_summary := [];
            effects := effects m ++ [EGetEvents]; calls := calls m;
            built := built m |} with (loop_start m).
  destruct (events_loop w delay (length evs) 1 evs (loop_start m))
    as [m1 [e|[]]]; [done|].
  change (match filename with
          | Some f => f
          | None => String.append "mlb_props_" (String.append (now w) ".xlsx")
          end) with (workbook_name w filename).
  unfold try_except, create_excel_workbook, bind, emit, ret, raise, advance.
  rewrite Nat.add_0_r. by destruct (workbook_ok w).
Qed.




(** X15: [max_events = 0] is no limit at all (the test is the truth value
    of the number), and neither is a limit that is at least the length of
    the listing: the run is the run without a limit. *)
Theorem max_events_zero_or_large_is_no_limit w k delay filename m :
  (k = 0 ∨ Z.of_nat (length (default [] (listing w))) ≤ k)%Z →
  fetch_all_props_to_excel w (Some k) delay filename m
  = fetch_all_props_to_excel w None delay filename m.
Proof.
  intros Hk.
  assert (Hlim : ∀ events, default [] (listing w) = events →
                           limit_events (Some k) events = events).
  { intros events Hev. unfold limit_events.
    destruct (Z.eqb_spec k 0) as [|Hk0]; [done|].
    destruct Hk as [|Hk]; [done|]. rewrite Hev in Hk.
    unfold slice_to. destruct (Z.leb_spec 0 k); [|lia].
    apply take_ge. lia. }
  destruct (listing w) as [events|] eqn:Hl;
    [destruct (decide (events = [])) as [->|Hne]|].
  - unfold fetch_all_props_to_excel, get_mlb_events, bind.
    cbn [modify_self emit ret fst snd]. by rewrite Hl.
  - rewrite !(fetch_all_props_to_excel_eq w _ delay filename events m Hl Hne).
    cbn zeta. by rewrite (Hlim events eq_refl).
  - unfold fetch_all_props_to_excel, get_mlb_events, bind.
    cbn [modify_self emit ret fst snd]. by rewrite Hl.
Qed.

Lemma max_events_zero_or_large_is_no_limit_witness :
  fetch_all_props_to_excel two_game_world (Some 0%Z) (3 # 2) None (boot reset)
  = fetch_all_props_to_excel two_game_world None (3 # 2) None (boot reset).
Proof.
  apply (max_events_zero_or_large_is_no_limit two_game_world 0 (3 # 2) None
           (boot reset)).
  left. reflexivity.
Defined.

(** X16: A negative [max_events] drops events from the end of the listing
    ([events[:max_events]]); when it drops them all, the run no longer
    takes the early exit for an empty listing: it makes no odds request,
    gathers nothing, and still goes on to write the workbook. *)
Theorem negative_max_events_can_skip_every_event
    w k delay filename f events :
  listing w = Some events → events ≠ [] →
  (Z.of_nat (length events) ≤ - k)%Z →
  fetch_all_props_to_excel w (Some k) delay filename (boot f)
  = ({| self := reset; events_summary := [];
        effects := [EGetEvents; EWorkbook (workbook_name w filename)];
        calls := 0; built := [] |},
     inr (if workbook_ok w then workbook_name w filename else "")).
Proof.
  intros Hl Hne Hk.
  rewrite (fetch_all_props_to_excel_eq w (Some k) delay filename events
             (boot f) Hl Hne).
  assert (Hlim : limit_events (Some k) events = []).
  { unfold limit_events.
    destruct events as [|ev0 events0]; [done|].
    destruct (Z.eqb_spec k 0) as [->|Hk0]; [cbn [length] in Hk; lia|].
    unfold slice_to. destruct (Z.leb_spec 0 k); [cbn [length] in Hk; lia|].
    replace (length (ev0 :: events0) - Z.to_nat (- k))%nat with 0%nat by lia.
    done. }
  cbn zeta. rewrite Hlim. reflexivity.
Qed.

Lemma negative_max_events_can_skip_every_event_witness :
  fetch_all_props_to_excel two_game_world (Some (-2)%Z) (3 # 2) None (boot reset)
  = ({| self := reset; events_summary := [];
        effects := [EGetEvents; EWorkbook (workbook_name two_game_world None)];
        calls := 0; built := [] |},
     inr (if workbook_ok two_game_world
          then workbook_name two_game_world None else "")).
Proof.
  apply (negative_max_events_can_skip_every_event two_game_world (-2) (3 # 2)
           None reset [sample_event "e1"; sample_event "e2"]).
  - reflexivity.
  - done.
  - cbn [length]. lia.
Defined.

(** ** The individual category sheets *)

Lemma individual_sheets_inr bet_type buckets sel cats :
  (∀ c, c ∈ cats → buckets !! c = Some (sel c)) →
  individual_sheets bet_type buckets cats = inr (sheets_of bet_type sel cats).
Proof.
  induction cats as [|c cats IH]; intros Hb; [done|].
  cbn [individual_sheets]. unfold subscript. rewrite (Hb c) by (by left).
  rewrite IH by (intros c' Hc'; apply Hb; by right).
  unfold sheets_of. cbn [omap list_omap]. by destruct (sel c).
Qed.

Lemma elem_of_sheets_of bet_type sel cats s :
  s ∈ sheets_of bet_type sel cats ↔
  ∃ c, c ∈ cats ∧ sel c ≠ [] ∧
       s = create_individual_category_sheet c bet_type (sel c).
Proof.
  unfold sheets_of. rewrite list_elem_of_omap. split.
  - intros (c & Hc & Hs). exists c. destruct (sel c); [done|].
    by injection Hs as <-.
  - intros (c & Hc & Hne & ->). exists c. by destruct (sel c).
Qed.

Lemma sheets_of_names bet_type sel cats :
  cs_sheet_name <$> sheets_of bet_type sel cats
  `sublist_of` (λ c, String.substring 0 31 (full_sheet_name c bet_type)) <$> cats.
Proof.
  unfold sheets_of.
  induction cats as [|c cats IH]; [done|].
  cbn [omap list_omap fmap list_fmap]. destruct (sel c).
  - by apply sublist_cons.
  - by apply sublist_skip.
Qed.

Lemma sheets_of_count bet_type sel cats :
  sum_list_with (λ s, default 0 (cs_count s)) (sheets_of bet_type sel cats)
  = sum_list_with (λ c, length (sel c)) cats.
Proof.
  unfold sheets_of.
  induction cats as [|c cats IH]; [done|].
  cbn [omap list_omap sum_list_with]. destruct (sel c).
  - by rewrite IH.
  - cbn [sum_list_with]. by rewrite IH.
Qed.

Lemma sum_list_with_add {A} (g h : A → nat) (l : list A) :
  sum_list_with g l + sum_list_with h l = sum_list_with (λ x, g x + h x) l.
Proof. induction l as [|x l IH]; simpl; lia. Qed.

Lemma sheet_names_NoDup :
  NoDup (((λ c, String.substring 0 31 (full_sheet_name c "Over"))
            <$> prop_categories)
         ++ ((λ c, String.substring 0 31 (full_sheet_name c "Under"))
               <$> prop_categories)).
Proof. apply (bool_decide_unpack _). by vm_compute. Qed.

Lemma sheet_names_fit bet_type c :
  bet_type = "Over" ∨ bet_type = "Under" → c ∈ prop_categories →
  String.substring 0 31 (full_sheet_name c bet_type)
  = full_sheet_name c bet_type.
Proof.
  intros Hb Hc.
  assert (H : Forall (λ c, String.substring 0 31 (full_sheet_name c "Over")
                           = full_sheet_name c "Over" ∧
                           String.substring 0 31 (full_sheet_name c "Under")
                           = full_sheet_name c "Under") prop_categories).
  { apply (bool_decide_unpack _). by vm_compute. }
  rewrite Forall_forall in H. destruct (H c Hc) as [Ho Hu].
  by destruct Hb as [-> | ->].
Qed.

(** X17: At the end of every run the individual category sheets are
    computed without raising.  A sheet is made for a category and a side
    exactly for the buckets that are not empty, so every recognized prop
    built in the run has its sheet and no sheet shows the no-data message;
    the number in the title of a sheet is the number of props built with
    that category and side, and these numbers add up to the number of
    recognized props.  The sheet names are pairwise distinct and none is
    cut by the limit of 31 characters. *)
Theorem category_sheets_match_buckets
    (w : world) (max_events : option Z) (delay_between_requests : Q)
    (filename : option string) (f : fetcher) :
  let m := (fetch_all_props_to_excel w max_events delay_between_requests
              filename (boot f)).1 in
  ∃ sheets,
    category_sheets (self m) = inr sheets ∧
    NoDup (cs_sheet_name <$> sheets) ∧
    Forall (λ s,
              cs_category s ∈ prop_categories ∧
              cs_sheet_name s = full_sheet_name (cs_category s) (cs_bet_type s) ∧
              (cs_bet_type s = "Over" ∧
               cs_count s = Some (length (over_of (cs_category s) (built m))) ∨
               cs_bet_type s = "Under" ∧
               cs_count s = Some (length (under_of (cs_category s) (built m)))) ∧
              cs_count s ≠ Some 0%nat)
           sheets ∧
    (∀ pd, pd ∈ built m → recognized pd →
           ∃ s, s ∈ sheets ∧ cs_category s = Category pd ∧
                lower (cs_bet_type s) = lower (Bet_Type pd)) ∧
    sum_list_with (λ s, default 0 (cs_count s)) sheets
    = length (filter recognized (built m)).
Proof.
  intros m.
  pose proof (run_replayed w max_events delay_between_requests filename f) as Hm.
  fold m in Hm. unfold replayed in Hm.
  set (over := sheets_of "Over" (λ c, over_of c (built m)) prop_categories).
  set (under := sheets_of "Under" (λ c, under_of c (built m)) prop_categories).
  assert (Hover : individual_sheets "Over" (over_props (self m)) prop_categories
                  = inr over).
  { apply individual_sheets_inr. intros c Hc.
    rewrite Hm, replay_over_props. by case_decide. }
  assert (Hunder : individual_sheets "Under" (under_props (self m)) prop_categories
                   = inr under).
  { apply individual_sheets_inr. intros c Hc.
    rewrite Hm, replay_under_props. by case_decide. }
  exists (over ++ under). unfold category_sheets. rewrite Hover, Hunder.
  split_and!; [done| | | |].
  - rewrite fmap_app. eapply sublist_NoDup; [apply sheet_names_NoDup|].
    apply sublist_app; apply sheets_of_names.
  - apply Forall_app. split; apply Forall_forall; intros s Hs;
      apply elem_of_sheets_of in Hs as (c & Hc & Hne & ->);
      cbn [create_individual_category_sheet cs_category cs_bet_type
             cs_sheet_name cs_count].
    + split_and!; [done| |left|].
      * apply (sheet_names_fit "Over" c); [by left | done].
      * split; [done|]. by destruct (over_of c (built m)).
      * by destruct (over_of c (built m)).
    + split_and!; [done| |right|].
      * apply (sheet_names_fit "Under" c); [by right | done].
      * split; [done|]. by destruct (under_of c (built m)).
      * by destruct (under_of c (built m)).
  - intros pd Hin [Hcat [Hside|Hside]].
    + exists (create_individual_category_sheet (Category pd) "Over"
                (over_of (Category pd) (built m))).
      split_and!; [|done|by rewrite Hside].
      apply elem_of_app. left. apply elem_of_sheets_of.
      exists (Category pd). split_and!; [done| |done].
      intros Hnil.
      assert (Hpd : pd ∈ over_of (Category pd) (built m))
        by (by apply list_elem_of_filter).
      rewrite Hnil in Hpd. by apply elem_of_nil in Hpd.
    + exists (create_individual_category_sheet (Category pd) "Under"
                (under_of (Category pd) (built m))).
      split_and!; [|done|by rewrite Hside].
      apply elem_of_app. right. apply elem_of_sheets_of.
      exists (Category pd). split_and!; [done| |done].
      intros Hnil.
      assert (Hpd : pd ∈ under_of (Category pd) (built m))
        by (by apply list_elem_of_filter).
      rewrite Hnil in Hpd. by apply elem_of_nil in Hpd.
  - rewrite sum_list_with_app. unfold over, under.
    rewrite !sheets_of_count.
    rewrite <- (Permutation_length (recognized_props_by_category (built m))).
    rewrite length_mjoin_fmap, sum_list_with_add.
    apply sum_list_with_ext. intros c. by rewrite length_app.
Qed.
